(** * Binary search tree of [include/bst.hpp]

    A shallow embedding of the class template [BST<T>] and of its nested
    struct [TreeNode], followed by the properties of insertion, removal,
    membership and the three traversals.

    Modelling conventions.
    - An owning slot of type [TreeNode*] (the [root] member, a [left] or a
      [right] member) is a value of the inductive type [TreeNode]: either
      [nullptr] or a node together with the two slots it owns.  Ownership in
      the source is strictly hierarchical, so the slot and the subtree hanging
      from it are the same piece of data.
    - A member function taking [TreeNode*& node] and assigning to it returns
      the new content of the slot next to its C++ return value.
    - [const T& value] is passed by value.  The only assignment to a stored
      [data] member is in the two-children case of [remove], and [value] is not
      read again after it in that call, so aliasing cannot be observed.
    - The element type only has to provide [operator<]; this is the class
      [Less].  The code never uses [==]. *)

From Stdlib Require Import List Bool Arith ZArith Lia Sorted Permutation.
Import ListNotations.

Set Implicit Arguments.
Set Warnings "-notation-for-abbreviation".

(** ** The element type *)

(** [operator<] of the template parameter. *)
Class Less (T : Type) : Type := less : T -> T -> bool.

(** Equivalence induced by the ordering: neither value is less than the
    other (the [else] branch of every descent in the source). *)
Definition equiv {T} `{Less T} (a b : T) : bool :=
  negb (less a b) && negb (less b a).

(** What the C++ standard calls a strict weak ordering. *)
Class StrictWeakOrder (T : Type) `{Less T} : Prop := {
  less_irrefl : forall a : T, less a a = false;
  less_trans : forall a b c : T,
      less a b = true -> less b c = true -> less a c = true;
  equiv_trans : forall a b c : T,
      equiv a b = true -> equiv b c = true -> equiv a c = true
}.

Arguments StrictWeakOrder T {_}.

#[export] Instance Z_less : Less Z := Z.ltb.

(** ** Data model *)

Section Model.

Context {T : Type} `{Less T}.

(** [struct TreeNode { T data; TreeNode* left; TreeNode* right; }] seen
    through the slot that owns it. *)
Inductive TreeNode : Type :=
| nullptr : TreeNode
| Node (left : TreeNode) (data : T) (right : TreeNode) : TreeNode.

(** [class BST { TreeNode* root; }] *)
Record BST : Type := mkBST { root : TreeNode }.

(** [BST<T>::BST()] *)
Definition BST_new : BST := mkBST nullptr.

(** [TreeNode::TreeNode(const T& value)] *)
Definition TreeNode_new (value : T) : TreeNode := Node nullptr value nullptr.

(** [p == nullptr] *)
Definition is_null (p : TreeNode) : bool :=
  match p with nullptr => true | Node _ _ _ => false end.

(** ** Minimum and maximum of a subtree *)

(** [TreeNode::max]: [while (current->right != nullptr) current =
    current->right;].  The loop state is [current]; each iteration moves to a
    strict subtree.  The source never calls it through a null pointer; the
    first branch is there only to make the function total. *)
Fixpoint max (current : TreeNode) : TreeNode :=
  match current with
  | nullptr => nullptr
  | Node _ _ r => if is_null r then current else max r
  end.

(** [TreeNode::min]: the same loop on [left]. *)
Fixpoint min (current : TreeNode) : TreeNode :=
  match current with
  | nullptr => nullptr
  | Node l _ _ => if is_null l then current else min l
  end.

(** ** Private recursive members *)

(** [bool BST<T>::insert(TreeNode*& node, const T& value)] *)
Fixpoint insert_node (node : TreeNode) (value : T) : bool * TreeNode :=
  match node with
  | nullptr => (true, TreeNode_new value)
  | Node l d r =>
      if less value d then
        let (b, l') := insert_node l value in (b, Node l' d r)
      else if less d value then
        let (b, r') := insert_node r value in (b, Node l d r')
      else (false, node)
  end.

(** [bool BST<T>::contain(const TreeNode* const node, const T& value) const] *)
Fixpoint contain_node (node : TreeNode) (value : T) : bool :=
  match node with
  | nullptr => false
  | Node l d r =>
      if less value d then contain_node l value
      else if less d value then contain_node r value
      else true
  end.

(** [TreeNode* BST<T>::find_node(TreeNode* node, const T& value) const]: the
    returned pointer is the node found, seen with the subtrees it owns. *)
Fixpoint find_node_at (node : TreeNode) (value : T) : TreeNode :=
  match node with
  | nullptr => nullptr
  | Node l d r =>
      if less value d then find_node_at l value
      else if less d value then find_node_at r value
      else node
  end.

(** [bool BST<T>::remove(TreeNode*& node, const T& value)].  In the last
    case [successor] cannot be null because [node->right] is not; the result
    of the inner call is discarded as in the source. *)
Fixpoint remove_node (node : TreeNode) (value : T) : bool * TreeNode :=
  match node with
  | nullptr => (false, nullptr)
  | Node l d r =>
      if less value d then
        let (b, l') := remove_node l value in (b, Node l' d r)
      else if less d value then
        let (b, r') := remove_node r value in (b, Node l d r')
      else if is_null l && is_null r then (true, nullptr)
      else if is_null l then (true, r)
      else if is_null r then (true, l)
      else
        match min r with
        | Node _ successor_data _ =>
            (true, Node l successor_data (snd (remove_node r successor_data)))
        | nullptr => (true, node)
        end
  end.

(** [void BST<T>::in_order(const TreeNode* const node, std::vector<T>& result)]:
    the vector is threaded through the calls; [push_back] appends. *)
Fixpoint in_order_rec (node : TreeNode) (result : list T) : list T :=
  match node with
  | nullptr => result
  | Node l d r => in_order_rec r (in_order_rec l result ++ [d])
  end.

(** [void BST<T>::pre_order(const TreeNode* const node, std::vector<T>& result)] *)
Fixpoint pre_order_rec (node : TreeNode) (result : list T) : list T :=
  match node with
  | nullptr => result
  | Node l d r => pre_order_rec r (pre_order_rec l (result ++ [d]))
  end.

(** [void BST<T>::post_order(const TreeNode* const node, std::vector<T>& result)] *)
Fixpoint post_order_rec (node : TreeNode) (result : list T) : list T :=
  match node with
  | nullptr => result
  | Node l d r => post_order_rec r (post_order_rec l result) ++ [d]
  end.

(** ** Public members *)

Definition insert (t : BST) (value : T) : bool * BST :=
  let (b, r) := insert_node (root t) value in (b, mkBST r).

Definition remove (t : BST) (value : T) : bool * BST :=
  let (b, r) := remove_node (root t) value in (b, mkBST r).

Definition contain (t : BST) (value : T) : bool := contain_node (root t) value.

Definition find_node (t : BST) (value : T) : TreeNode :=
  find_node_at (root t) value.

Definition in_order (t : BST) : list T := in_order_rec (root t) [].
Definition pre_order (t : BST) : list T := pre_order_rec (root t) [].
Definition post_order (t : BST) : list T := post_order_rec (root t) [].

(** ** Operation histories *)

Inductive op : Type :=
| Insert (value : T)
| Remove (value : T).

Definition is_insert (o : op) : bool :=
  match o with Insert _ => true | Remove _ => false end.

Definition apply_op (t : BST) (o : op) : bool * BST :=
  match o with
  | Insert v => insert t v
  | Remove v => remove t v
  end.

(** Runs the calls of [ops] in order on [t]; gives the value returned by each
    call and the final tree. *)
Fixpoint run (ops : list op) (t : BST) : list bool * BST :=
  match ops with
  | [] => ([], t)
  | o :: rest =>
      let (b, t') := apply_op t o in
      let (bs, t'') := run rest t' in
      (b :: bs, t'')
  end.

(** Number of calls of one kind ([Insert] when [ins] is [true], [Remove]
    otherwise) that returned [true]. *)
Fixpoint successes (ins : bool) (ops : list op) (results : list bool) : nat :=
  match ops, results with
  | o :: ops', b :: results' =>
      (if Bool.eqb (is_insert o) ins && b then 1 else 0)
      + successes ins ops' results'
  | _, _ => 0
  end.

(** ** The ordering invariant *)

(** Every value stored below [node] satisfies [p]. *)
Fixpoint all_values (p : T -> bool) (node : TreeNode) : bool :=
  match node with
  | nullptr => true
  | Node l d r => all_values p l && p d && all_values p r
  end.

(** For every node, the values of its left subtree are less than its value
    and its value is less than the values of its right subtree. *)
Fixpoint is_bst (node : TreeNode) : bool :=
  match node with
  | nullptr => true
  | Node l d r =>
      all_values (fun x => less x d) l && all_values (fun x => less d x) r
      && is_bst l && is_bst r
  end.

(** A strictly ascending sequence: each element is less than all later ones. *)
Definition ascending (s : list T) : Prop :=
  StronglySorted (fun a b => less a b = true) s.

(** Number of nodes and height. *)
Fixpoint size (node : TreeNode) : nat :=
  match node with
  | nullptr => 0
  | Node l _ r => S (size l + size r)
  end.

Fixpoint height (node : TreeNode) : nat :=
  match node with
  | nullptr => 0
  | Node l _ r => S (Nat.max (height l) (height r))
  end.

End Model.

Arguments TreeNode T : clear implicits.
Arguments BST T : clear implicits.
Arguments op T : clear implicits.

(** ** Descent paths *)

Section Paths.

Context {T : Type} `{Less T}.

(** One step of a descent: into [node->left] or into [node->right]. *)
Inductive dir : Type := go_left | go_right.

(** The comparisons shared by [insert], [contain], [find_node] and [remove]:
    left when [value < node->data], right when [node->data < value], stop at a
    null slot or at an equivalent node. *)
Fixpoint descent (node : TreeNode T) (value : T) : list dir :=
  match node with
  | nullptr => []
  | Node l d r =>
      if less value d then go_left :: descent l value
      else if less d value then go_right :: descent r value
      else []
  end.

(** Content of the slot reached from [node] along [p]. *)
Fixpoint slot_at (node : TreeNode T) (p : list dir) : option (TreeNode T) :=
  match p, node with
  | [], _ => Some node
  | _ :: _, nullptr => None
  | go_left :: p', Node l _ _ => slot_at l p'
  | go_right :: p', Node _ _ r => slot_at r p'
  end.

(** The tree in which the slot at [p] holds [content] and nothing else
    differs. *)
Fixpoint assign_at (node : TreeNode T) (p : list dir) (content : TreeNode T)
  : TreeNode T :=
  match p, node with
  | [], _ => content
  | _ :: _, nullptr => nullptr
  | go_left :: p', Node l d r => Node (assign_at l p' content) d r
  | go_right :: p', Node l d r => Node l d (assign_at r p' content)
  end.

(** ** Which branch of [remove] runs *)

(** The four structural cases at the node found by [remove], numbered as in
    the source comments (Caso 1 .. Caso 4). *)
Inductive removal_case : Type :=
| case_leaf
| case_only_right
| case_only_left
| case_two_children.

(** The cases entered by the call [remove(node, value)], the inner call of
    the two-children case included, in the order they are entered.  Same
    control flow as [remove_node]; the log is ghost state. *)
Fixpoint remove_cases (node : TreeNode T) (value : T) : list removal_case :=
  match node with
  | nullptr => []
  | Node l d r =>
      if less value d then remove_cases l value
      else if less d value then remove_cases r value
      else if is_null l && is_null r then [case_leaf]
      else if is_null l then [case_only_right]
      else if is_null r then [case_only_left]
      else
        match min r with
        | Node _ successor_data _ =>
            case_two_children :: remove_cases r successor_data
        | nullptr => [case_two_children]
        end
  end.

End Paths.

(** ** Step-indexed execution

    The same member functions with the recursion (and, for [min] and [max],
    the loop) unrolled at most [fuel] times: [None] means that the budget of
    nested calls, or of loop iterations, was used up before the function
    returned. *)

Section Fuel.

Context {T : Type} `{Less T}.

Definition bind {A B} (m : option A) (k : A -> option B) : option B :=
  match m with Some a => k a | None => None end.

Local Notation "x <- m ;; k" := (bind m (fun x => k))
  (at level 61, m at next level, right associativity).

Fixpoint max_fuel (fuel : nat) (current : TreeNode T) : option (TreeNode T) :=
  match fuel, current with
  | 0, _ => None
  | _, nullptr => None
  | S fuel', Node _ _ r => if is_null r then Some current else max_fuel fuel' r
  end.

Fixpoint min_fuel (fuel : nat) (current : TreeNode T) : option (TreeNode T) :=
  match fuel, current with
  | 0, _ => None
  | _, nullptr => None
  | S fuel', Node l _ _ => if is_null l then Some current else min_fuel fuel' l
  end.

Fixpoint insert_fuel (fuel : nat) (node : TreeNode T) (value : T)
  : option (bool * TreeNode T) :=
  match fuel with
  | 0 => None
  | S fuel' =>
      match node with
      | nullptr => Some (true, TreeNode_new value)
      | Node l d r =>
          if less value d then
            res <- insert_fuel fuel' l value ;; Some (fst res, Node (snd res) d r)
          else if less d value then
            res <- insert_fuel fuel' r value ;; Some (fst res, Node l d (snd res))
          else Some (false, node)
      end
  end.

Fixpoint contain_fuel (fuel : nat) (node : TreeNode T) (value : T)
  : option bool :=
  match fuel with
  | 0 => None
  | S fuel' =>
      match node with
      | nullptr => Some false
      | Node l d r =>
          if less value d then contain_fuel fuel' l value
          else if less d value then contain_fuel fuel' r value
          else Some true
      end
  end.

Fixpoint find_node_fuel (fuel : nat) (node : TreeNode T) (value : T)
  : option (TreeNode T) :=
  match fuel with
  | 0 => None
  | S fuel' =>
      match node with
      | nullptr => Some nullptr
      | Node l d r =>
          if less value d then find_node_fuel fuel' l value
          else if less d value then find_node_fuel fuel' r value
          else Some node
      end
  end.

Fixpoint remove_fuel (fuel : nat) (node : TreeNode T) (value : T)
  : option (bool * TreeNode T) :=
  match fuel with
  | 0 => None
  | S fuel' =>
      match node with
      | nullptr => Some (false, nullptr)
      | Node l d r =>
          if less value d then
            res <- remove_fuel fuel' l value ;; Some (fst res, Node (snd res) d r)
          else if less d value then
            res <- remove_fuel fuel' r value ;; Some (fst res, Node l d (snd res))
          else if is_null l && is_null r then Some (true, nullptr)
          else if is_null l then Some (true, r)
          else if is_null r then Some (true, l)
          else
            successor <- min_fuel fuel' r ;;
            match successor with
            | Node _ successor_data _ =>
                res <- remove_fuel fuel' r successor_data ;;
                Some (true, Node l successor_data (snd res))
            | nullptr => None
            end
      end
  end.

Fixpoint in_order_fuel (fuel : nat) (node : TreeNode T) (result : list T)
  : option (list T) :=
  match fuel with
  | 0 => None
  | S fuel' =>
      match node with
      | nullptr => Some result
      | Node l d r =>
          result1 <- in_order_fuel fuel' l result ;;
          in_order_fuel fuel' r (result1 ++ [d])
      end
  end.

Fixpoint pre_order_fuel (fuel : nat) (node : TreeNode T) (result : list T)
  : option (list T) :=
  match fuel with
  | 0 => None
  | S fuel' =>
      match node with
      | nullptr => Some result
      | Node l d r =>
          result1 <- pre_order_fuel fuel' l (result ++ [d]) ;;
          pre_order_fuel fuel' r result1
      end
  end.

Fixpoint post_order_fuel (fuel : nat) (node : TreeNode T) (result : list T)
  : option (list T) :=
  match fuel with
  | 0 => None
  | S fuel' =>
      match node with
      | nullptr => Some result
      | Node l d r =>
          result1 <- post_order_fuel fuel' l result ;;
          result2 <- post_order_fuel fuel' r result1 ;;
          Some (result2 ++ [d])
      end
  end.

End Fuel.

(** ** A concrete tree of integers *)

(** The tree built by inserting 50, 30, 70, 20, 40, 60, 80 into an empty
    tree, and the history that then removes 50. *)
Definition seven_inserts : list (op Z) :=
  map (@Insert Z) [50; 30; 70; 20; 40; 60; 80]%Z.

Definition seven : BST Z := snd (run seven_inserts BST_new).

(** The two subtrees of its root. *)
Definition seven_left : TreeNode Z :=
  Node (TreeNode_new 20%Z) 30%Z (TreeNode_new 40%Z).

Definition seven_right : TreeNode Z :=
  Node (TreeNode_new 60%Z) 70%Z (TreeNode_new 80%Z).

(** A longer history: the seven insertions, then two removals of 50, a
    second insertion of 20 and an insertion of 55. *)
Definition sample_history : list (op Z) :=
  seven_inserts ++ [Remove 50; Remove 50; Insert 20; Insert 55]%Z.

(** ** The same members over an explicit free store

    The inductive type [TreeNode] identifies a slot with the subtree it owns.
    Here the nodes live in a free store instead: a pointer is an address or
    null, [new] takes an unused address, [delete] runs the destructor and
    releases the cell, and every access to a released cell is an error.  A
    parameter of type [TreeNode*&] is a [slot] (the [root] member or a child
    field of a live node) and a parameter of type [const T&] is a [value_ref]
    (a value of the caller or the [data] field of a node), both read at the
    moment the source reads them.  [None] as a result means that the call
    touched a released cell, released a cell twice, or did not return within
    [fuel] nested calls or loop iterations. *)

Definition addr : Type := nat.

(** [TreeNode*]: [None] is the null pointer. *)
Definition pointer : Type := option addr.

Definition is_nullp (p : pointer) : bool :=
  match p with None => true | Some _ => false end.

Section Memory.

Context {T : Type} `{Less T}.

Local Notation "x <- m ;; k" := (bind m (fun x => k))
  (at level 61, m at next level, right associativity).

(** A [TreeNode] object in the free store. *)
Record cell : Type := mkCell {
  cell_data : T;
  cell_left : pointer;
  cell_right : pointer
}.

(** The [BST] object (its [root] member) and the free store. *)
Record store : Type := mkStore {
  root_ptr : pointer;
  cells : addr -> option cell
}.

Inductive slot : Type :=
| root_slot
| left_slot (a : addr)
| right_slot (a : addr).

Inductive value_ref : Type :=
| outside (v : T)
| data_slot (a : addr).

Definition set_cell (a : addr) (c : option cell) (m : store) : store :=
  mkStore (root_ptr m) (fun x => if Nat.eqb x a then c else cells m x).

Definition read_slot (node : slot) (m : store) : option pointer :=
  match node with
  | root_slot => Some (root_ptr m)
  | left_slot a => c <- cells m a ;; Some (cell_left c)
  | right_slot a => c <- cells m a ;; Some (cell_right c)
  end.

(** The store after an assignment through [node]. *)
Definition poke (node : slot) (p : pointer) (m : store) : store :=
  match node with
  | root_slot => mkStore p (cells m)
  | left_slot a =>
      set_cell a
        (c <- cells m a ;; Some (mkCell (cell_data c) p (cell_right c))) m
  | right_slot a =>
      set_cell a
        (c <- cells m a ;; Some (mkCell (cell_data c) (cell_left c) p)) m
  end.

(** [node = p]: an error when the slot lies in a released cell. *)
Definition write_slot (node : slot) (p : pointer) (m : store) : option store :=
  _ <- read_slot node m ;; Some (poke node p m).

Definition read_value (value : value_ref) (m : store) : option T :=
  match value with
  | outside v => Some v
  | data_slot a => c <- cells m a ;; Some (cell_data c)
  end.

(** [a->data = d] *)
Definition write_data (a : addr) (d : T) (m : store) : option store :=
  c <- cells m a ;;
  Some (set_cell a (Some (mkCell d (cell_left c) (cell_right c))) m).

(** Releasing the cell of an object; releasing a cell twice is an error. *)
Definition free (a : addr) (m : store) : option store :=
  c <- cells m a ;; Some (set_cell a None m).

(** [delete p]: nothing for a null pointer; otherwise the destructor
    [~TreeNode] ([delete left; delete right;]) runs and the cell is
    released.  [BST<T>::~BST] is [delete root]. *)
Fixpoint delete_mem (fuel : nat) (p : pointer) (m : store) : option store :=
  match p with
  | None => Some m
  | Some a =>
      match fuel with
      | 0 => None
      | S fuel' =>
          c <- cells m a ;;
          m1 <- delete_mem fuel' (cell_left c) m ;;
          c1 <- cells m1 a ;;
          m2 <- delete_mem fuel' (cell_right c1) m1 ;;
          free a m2
      end
  end.

Definition BST_delete (fuel : nat) (m : store) : option store :=
  delete_mem fuel (root_ptr m) m.


Fixpoint min_mem (fuel : nat) (current : addr) (m : store) : option addr :=
  match fuel with
  | 0 => None
  | S fuel' =>
      c <- cells m current ;;
      match cell_left c with
      | None => Some current
      | Some a => min_mem fuel' a m
      end
  end.

(** [new TreeNode(value)]: the allocator [fresh] chooses the address, which
    must not be in use. *)
Variable fresh : store -> addr.

Definition new_node (v : T) (m : store) : option (addr * store) :=
  match cells m (fresh m) with
  | Some _ => None
  | None => Some (fresh m, set_cell (fresh m) (Some (mkCell v None None)) m)
  end.

Fixpoint insert_mem (fuel : nat) (node : slot) (value : value_ref) (m : store)
  : option (bool * store) :=
  match fuel with
  | 0 => None
  | S fuel' =>
      p <- read_slot node m ;;
      match p with
      | None =>
          v <- read_value value m ;;
          am <- new_node v m ;;
          m2 <- write_slot node (Some (fst am)) (snd am) ;;
          Some (true, m2)
      | Some a =>
          v <- read_value value m ;;
          c <- cells m a ;;
          if less v (cell_data c) then insert_mem fuel' (left_slot a) value m
          else if less (cell_data c) v then
            insert_mem fuel' (right_slot a) value m
          else Some (false, m)
      end
  end.



Fixpoint remove_mem (fuel : nat) (node : slot) (value : value_ref) (m : store)
  : option (bool * store) :=
  match fuel with
  | 0 => None
  | S fuel' =>
      p <- read_slot node m ;;
      match p with
      | None => Some (false, m)
      | Some a =>
          v <- read_value value m ;;
          c <- cells m a ;;
          if less v (cell_data c) then remove_mem fuel' (left_slot a) value m
          else if less (cell_data c) v then
            remove_mem fuel' (right_slot a) value m
          else if is_nullp (cell_left c) && is_nullp (cell_right c) then
            (* delete node; node = nullptr; *)
            m1 <- delete_mem fuel' (Some a) m ;;
            m2 <- write_slot node None m1 ;;
            Some (true, m2)
          else if is_nullp (cell_left c) then
            (* temp = node; node = node->right; temp->right = nullptr;
               delete temp; *)
            m1 <- write_slot node (cell_right c) m ;;
            m2 <- write_slot (right_slot a) None m1 ;;
            m3 <- delete_mem fuel' (Some a) m2 ;;
            Some (true, m3)
          else if is_nullp (cell_right c) then
            m1 <- write_slot node (cell_left c) m ;;
            m2 <- write_slot (left_slot a) None m1 ;;
            m3 <- delete_mem fuel' (Some a) m2 ;;
            Some (true, m3)
          else
            match cell_right c with
            | None => None
            | Some right_child =>
                successor <- min_mem fuel' right_child m ;;
                successor_data <- read_value (data_slot successor) m ;;
                m1 <- write_data a successor_data m ;;
                res <- remove_mem fuel' (right_slot a) (data_slot successor) m1 ;;
                Some (true, snd res)
            end
      end
  end.




(** *** What it means for the store to hold a tree *)

(** The cells reachable from [p] spell out the tree [t]; [fp] lists their
    addresses, node first, then the left subtree, then the right one. *)
Fixpoint owns (h : addr -> option cell) (p : pointer) (t : TreeNode T)
  (fp : list addr) : Prop :=
  match t with
  | nullptr => p = None /\ fp = []
  | Node l d r =>
      exists a pl pr fl fr,
        p = Some a /\ h a = Some (mkCell d pl pr) /\ fp = a :: fl ++ fr /\
        owns h pl l fl /\ owns h pr r fr
  end.

(** The store holds the tree [t] below its [root] member, in the cells [fp],
    each used by one node only: no cell is shared and there is no cycle. *)
Definition holds (m : store) (t : TreeNode T) (fp : list addr) : Prop :=
  owns (cells m) (root_ptr m) t fp /\ NoDup fp.

(** Two stores that differ at most in the cells [fp]. *)
Definition same_outside (fp : list addr) (m m' : store) : Prop :=
  root_ptr m = root_ptr m' /\ forall x, ~ In x fp -> cells m x = cells m' x.

(** A slot that is not a field of one of the cells [fp]. *)
Definition slot_outside (node : slot) (fp : list addr) : Prop :=
  match node with
  | root_slot => True
  | left_slot a | right_slot a => ~ In a fp
  end.

End Memory.

Arguments cell T : clear implicits.
Arguments store T : clear implicits.
Arguments value_ref T : clear implicits.

(** An allocator for the examples: the least unused address, searched up to
    a bound. *)
Fixpoint first_free {T} (bound : nat) (m : store T) : addr :=
  match bound with
  | 0 => 0
  | S bound' =>
      let a := first_free bound' m in
      match cells m a with
      | None => a
      | Some _ => S bound'
      end
  end.

(** A store holding the tree [seven], and nothing else. *)
Definition seven_store : store Z :=
  mkStore (Some 0)
    (fun a =>
       match a with
       | 0 => Some (mkCell 50%Z (Some 1) (Some 2))
       | 1 => Some (mkCell 30%Z (Some 3) (Some 4))
       | 2 => Some (mkCell 70%Z (Some 5) (Some 6))
       | 3 => Some (mkCell 20%Z None None)
       | 4 => Some (mkCell 40%Z None None)
       | 5 => Some (mkCell 60%Z None None)
       | 6 => Some (mkCell 80%Z None None)
       | _ => None
       end).

Definition seven_cells : list addr := [0; 1; 3; 4; 2; 5; 6].

(** * Properties *)

(** ** Lists *)

Section SortedLists.

Variable A : Type.
Variable R : A -> A -> Prop.

Lemma StronglySorted_app_inv (l1 l2 : list A) :
  StronglySorted R (l1 ++ l2) ->
  StronglySorted R l1 /\ StronglySorted R l2 /\
  (forall x y, In x l1 -> In y l2 -> R x y).
Proof.
  induction l1 as [|a l1 IH]; simpl; intros Hs.
  - repeat split; [constructor | assumption | intros x y []].
  - apply StronglySorted_inv in Hs. destruct Hs as [Hs Ha].
    destruct (IH Hs) as (H1 & H2 & H12).
    rewrite Forall_app in Ha. destruct Ha as [Ha1 Ha2].
    repeat split; auto.
    + constructor; assumption.
    + intros x y [<-|Hx] Hy; [| now apply H12].
      rewrite Forall_forall in Ha2. now apply Ha2.
Qed.

Lemma StronglySorted_app (l1 l2 : list A) :
  StronglySorted R l1 -> StronglySorted R l2 ->
  (forall x y, In x l1 -> In y l2 -> R x y) ->
  StronglySorted R (l1 ++ l2).
Proof.
  induction l1 as [|a l1 IH]; simpl; intros H1 H2 H12; [assumption|].
  apply StronglySorted_inv in H1. destruct H1 as [H1 Ha].
  constructor.
  - apply IH; auto.
  - rewrite Forall_app. split; [assumption|].
    rewrite Forall_forall. intros y Hy. apply H12; auto.
Qed.

(** Dropping one element keeps a sequence sorted. *)
Lemma StronglySorted_drop (l1 l2 : list A) (x : A) :
  StronglySorted R (l1 ++ x :: l2) -> StronglySorted R (l1 ++ l2).
Proof.
  intros Hs. apply StronglySorted_app_inv in Hs.
  destruct Hs as (H1 & H2 & H12).
  apply StronglySorted_inv in H2.
  apply StronglySorted_app; [assumption | tauto |].
  intros a b Ha Hb. apply H12; [assumption | now right].
Qed.

Lemma StronglySorted_NoDup (l : list A) :
  (forall a, ~ R a a) -> StronglySorted R l -> NoDup l.
Proof.
  intros Hirr. induction 1 as [|a l Hs IH Ha]; constructor; [|assumption].
  intros Hin. rewrite Forall_forall in Ha. exact (Hirr a (Ha a Hin)).
Qed.

End SortedLists.

(** ** Traversals *)

Section Traversals.

Context {T : Type}.

Implicit Types (node l r : TreeNode T) (result : list T).

Lemma in_order_rec_app node result :
  in_order_rec node result = result ++ in_order_rec node [].
Proof.
  revert result. induction node as [|l IHl d r IHr]; intros result; simpl.
  - now rewrite app_nil_r.
  - rewrite (IHr (in_order_rec l result ++ [d])).
    rewrite (IHr (in_order_rec l [] ++ [d])), (IHl result).
    now rewrite <- !app_assoc.
Qed.

Lemma in_order_rec_Node l d r :
  in_order_rec (Node l d r) [] = in_order_rec l [] ++ d :: in_order_rec r [].
Proof.
  simpl. rewrite in_order_rec_app. now rewrite <- app_assoc.
Qed.

Lemma pre_order_rec_app node result :
  pre_order_rec node result = result ++ pre_order_rec node [].
Proof.
  revert result. induction node as [|l IHl d r IHr]; intros result; simpl.
  - now rewrite app_nil_r.
  - rewrite (IHr (pre_order_rec l (result ++ [d]))).
    rewrite (IHr (pre_order_rec l [d])), (IHl (result ++ [d])), (IHl [d]).
    now rewrite <- !app_assoc.
Qed.

Lemma pre_order_rec_Node l d r :
  pre_order_rec (Node l d r) [] = d :: pre_order_rec l [] ++ pre_order_rec r [].
Proof.
  simpl. rewrite pre_order_rec_app, (pre_order_rec_app l). reflexivity.
Qed.

Lemma post_order_rec_app node result :
  post_order_rec node result = result ++ post_order_rec node [].
Proof.
  revert result. induction node as [|l IHl d r IHr]; intros result; simpl.
  - now rewrite app_nil_r.
  - rewrite (IHr (post_order_rec l result)).
    rewrite (IHr (post_order_rec l [])), (IHl result).
    now rewrite <- !app_assoc.
Qed.

Lemma post_order_rec_Node l d r :
  post_order_rec (Node l d r) [] =
  post_order_rec l [] ++ post_order_rec r [] ++ [d].
Proof.
  simpl. rewrite post_order_rec_app. now rewrite <- app_assoc.
Qed.

Lemma in_order_length node : length (in_order_rec node []) = size node.
Proof.
  induction node as [|l IHl d r IHr]; [reflexivity|].
  rewrite in_order_rec_Node, length_app. simpl. lia.
Qed.

Lemma pre_order_perm node :
  Permutation (in_order_rec node []) (pre_order_rec node []).
Proof.
  induction node as [|l IHl d r IHr]; [constructor|].
  rewrite in_order_rec_Node, pre_order_rec_Node.
  symmetry. apply Permutation_cons_app.
  symmetry. now apply Permutation_app.
Qed.

Lemma post_order_perm node :
  Permutation (in_order_rec node []) (post_order_rec node []).
Proof.
  induction node as [|l IHl d r IHr]; [constructor|].
  rewrite in_order_rec_Node, post_order_rec_Node.
  apply Permutation_app; [assumption|].
  change (d :: in_order_rec r []) with ([d] ++ in_order_rec r []).
  rewrite Permutation_app_comm. now apply Permutation_app.
Qed.

(** C8: the three traversals list the same elements.  Each is a
    rearrangement of the others, so they have the same members and the same
    length. *)
Theorem traversal_consistency (t : BST T) :
  Permutation (in_order t) (pre_order t) /\
  Permutation (in_order t) (post_order t) /\
  Permutation (pre_order t) (post_order t) /\
  (forall x, In x (in_order t) <-> In x (pre_order t)) /\
  (forall x, In x (in_order t) <-> In x (post_order t)) /\
  length (in_order t) = length (pre_order t) /\
  length (in_order t) = length (post_order t).
Proof.
  unfold in_order, pre_order, post_order.
  pose proof (pre_order_perm (root t)) as Hpre.
  pose proof (post_order_perm (root t)) as Hpost.
  repeat split;
    try assumption;
    try (now rewrite <- Hpre);
    try (intros ?; eapply Permutation_in; [|eassumption]; 
         first [eassumption | symmetry; eassumption]);
    try (now apply Permutation_length).
Qed.

End Traversals.

(** ** Insertion, removal and the ordering invariant *)

Section Ordered.

Context {T : Type} `{Less T}.

Implicit Types (node l r : TreeNode T) (v w x d : T).

Local Notation elems node := (in_order_rec node []).

Lemma equiv_sym v w : equiv v w = equiv w v.
Proof. unfold equiv. apply andb_comm. Qed.

Lemma equiv_less v w : equiv v w = true -> less v w = false /\ less w v = false.
Proof.
  unfold equiv. rewrite andb_true_iff, !negb_true_iff. tauto.
Qed.

Lemma all_values_forallb (p : T -> bool) node :
  all_values p node = forallb p (elems node).
Proof.
  induction node as [|l IHl d r IHr]; [reflexivity|].
  rewrite in_order_rec_Node, forallb_app. simpl.
  now rewrite IHl, IHr, andb_assoc.
Qed.

Lemma all_values_In (p : T -> bool) node :
  all_values p node = true <-> (forall x, In x (elems node) -> p x = true).
Proof. rewrite all_values_forallb. apply forallb_forall. Qed.

Lemma ascending_is_bst node : ascending (elems node) -> is_bst node = true.
Proof.
  induction node as [|l IHl d r IHr]; [reflexivity|].
  rewrite in_order_rec_Node. intros Hs.
  apply StronglySorted_app_inv in Hs. destruct Hs as (H1 & H2 & H12).
  apply StronglySorted_inv in H2. destruct H2 as [H2 Hd].
  simpl. rewrite IHl, IHr by assumption. rewrite !andb_true_r.
  apply andb_true_iff; split; apply all_values_In; intros x Hx.
  - apply H12; simpl; auto.
  - rewrite Forall_forall in Hd. auto.
Qed.

(** *** Insertion *)

Lemma insert_node_fst node v :
  fst (insert_node node v) = negb (contain_node node v).
Proof.
  induction node as [|l IHl d r IHr]; simpl; [reflexivity|].
  destruct (less v d).
  - destruct (insert_node l v); assumption.
  - destruct (less d v); [|reflexivity].
    destruct (insert_node r v); assumption.
Qed.

Lemma insert_node_false node v :
  fst (insert_node node v) = false -> snd (insert_node node v) = node.
Proof.
  induction node as [|l IHl d r IHr]; simpl; [discriminate|].
  destruct (less v d).
  - destruct (insert_node l v) as [b l']; simpl in *.
    intros Hb. now rewrite IHl.
  - destruct (less d v); [|reflexivity].
    destruct (insert_node r v) as [b r']; simpl in *.
    intros Hb. now rewrite IHr.
Qed.

Lemma insert_node_elems node v :
  fst (insert_node node v) = true ->
  exists s1 s2,
    elems node = s1 ++ s2 /\ elems (snd (insert_node node v)) = s1 ++ v :: s2.
Proof.
  induction node as [|l IHl d r IHr]; simpl fst; simpl snd.
  - intros _. now exists [], [].
  - simpl insert_node. destruct (less v d).
    + destruct (insert_node l v) as [b l']; simpl in *. intros Hb.
      destruct (IHl Hb) as (s1 & s2 & E1 & E2).
      exists s1, (s2 ++ d :: elems r).
      rewrite (in_order_rec_app r), (in_order_rec_app r (_ ++ _)).
      rewrite E1, E2. now rewrite <- !app_assoc.
    + destruct (less d v); [|discriminate].
      destruct (insert_node r v) as [b r']; simpl in *. intros Hb.
      destruct (IHr Hb) as (s1 & s2 & E1 & E2).
      exists (elems l ++ d :: s1), s2.
      rewrite (in_order_rec_app r), (in_order_rec_app r').
      rewrite E1, E2. now rewrite <- !app_assoc.
Qed.

Lemma insert_node_all (p : T -> bool) node v :
  all_values p node = true -> p v = true ->
  all_values p (snd (insert_node node v)) = true.
Proof.
  intros Hp Hv. induction node as [|l IHl d r IHr]; simpl.
  - now rewrite Hv.
  - simpl in Hp. rewrite !andb_true_iff in Hp. destruct Hp as [[Hl Hd] Hr].
    destruct (less v d).
    + destruct (insert_node l v) as [b l']; simpl in *.
      now rewrite IHl, Hd, Hr.
    + destruct (less d v).
      * destruct (insert_node r v) as [b r']; simpl in *.
        now rewrite IHr, Hd, Hl.
      * simpl. now rewrite Hl, Hd, Hr.
Qed.

Lemma insert_node_is_bst node v :
  is_bst node = true -> is_bst (snd (insert_node node v)) = true.
Proof.
  induction node as [|l IHl d r IHr]; simpl; [reflexivity|].
  rewrite !andb_true_iff. intros [[[Hl Hr] Hbl] Hbr].
  destruct (less v d) eqn:E1.
  - pose proof (insert_node_all (fun x => less x d) l v Hl E1) as Hl'.
    destruct (insert_node l v) as [b l']; simpl in *.
    now rewrite Hl', Hr, IHl, Hbr.
  - destruct (less d v) eqn:E2.
    + pose proof (insert_node_all (fun x => less d x) r v Hr E2) as Hr'.
      destruct (insert_node r v) as [b r']; simpl in *.
      now rewrite Hl, Hr', Hbl, IHr.
    + simpl. now rewrite Hl, Hr, Hbl, Hbr.
Qed.

(** *** Removal *)

Lemma remove_node_fst node v :
  fst (remove_node node v) = contain_node node v.
Proof.
  induction node as [|l IHl d r IHr]; simpl; [reflexivity|].
  destruct (less v d).
  - destruct (remove_node l v); assumption.
  - destruct (less d v).
    + destruct (remove_node r v); assumption.
    + destruct l, r; simpl; try reflexivity.
      destruct (if is_null r1 then _ else _); reflexivity.
Qed.

Lemma remove_node_false node v :
  fst (remove_node node v) = false -> snd (remove_node node v) = node.
Proof.
  induction node as [|l IHl d r IHr]; simpl; [reflexivity|].
  destruct (less v d).
  - destruct (remove_node l v) as [b l']; simpl in *.
    intros Hb. now rewrite IHl.
  - destruct (less d v).
    + destruct (remove_node r v) as [b r']; simpl in *.
      intros Hb. now rewrite IHr.
    + destruct l, r; simpl; try discriminate.
      destruct (if is_null r1 then _ else _); discriminate.
Qed.

Lemma min_Node node :
  is_null node = false -> exists s rr, min node = Node nullptr s rr.
Proof.
  induction node as [|l IHl d r _]; [discriminate|]. intros _.
  simpl. destruct l as [|ll ld lr]; simpl.
  - now exists d, r.
  - apply IHl. reflexivity.
Qed.

(** *** Under a strict weak ordering *)

Section StrictWeak.

Context `{!StrictWeakOrder T}.

Lemma equiv_refl v : equiv v v = true.
Proof. unfold equiv. now rewrite less_irrefl. Qed.

Lemma less_equiv_false v w : less v w = true -> equiv v w = false.
Proof. unfold equiv. now intros ->. Qed.

Lemma is_bst_ascending node : is_bst node = true -> ascending (elems node).
Proof.
  induction node as [|l IHl d r IHr]; simpl; [constructor|].
  rewrite !andb_true_iff. intros [[[Hl Hr] Hbl] Hbr].
  rewrite all_values_In in Hl, Hr.
  rewrite in_order_rec_app.
  apply StronglySorted_app.
  - apply StronglySorted_app; [now apply IHl | repeat constructor |].
    intros x y Hx [<-|[]]. now apply Hl.
  - now apply IHr.
  - intros x y Hx Hy. apply in_app_or in Hx. destruct Hx as [Hx|[<-|[]]].
    + apply less_trans with d; auto.
    + now apply Hr.
Qed.

(** The leftmost node of a non-empty search tree has no left child, its
    value heads the in-order sequence, and removing that value takes the
    leaf or the only-right-child branch. *)
Lemma remove_min r :
  is_bst r = true -> is_null r = false ->
  exists s rr r',
    min r = Node nullptr s rr /\
    remove_node r s = (true, r') /\
    elems r = s :: elems r' /\
    (remove_cases r s = [case_leaf] \/ remove_cases r s = [case_only_right]).
Proof.
  induction r as [|l IHl d r _]; [discriminate|]. intros Hb _.
  simpl in Hb. rewrite !andb_true_iff in Hb. destruct Hb as [[[Hl Hr] Hbl] Hbr].
  destruct l as [|ll ld lr].
  - exists d, r, r. repeat split.
    + simpl. rewrite less_irrefl. destruct r; reflexivity.
    + now rewrite in_order_rec_Node.
    + simpl. rewrite less_irrefl. destruct r; simpl; auto.
  - destruct (IHl Hbl eq_refl) as (s & rr & l' & Hmin & Hrem & Hel & Hcase).
    exists s, rr, (Node l' d r).
    assert (Hs : less s d = true).
    { rewrite all_values_In in Hl. apply Hl. rewrite Hel. now left. }
    change (min (Node (Node ll ld lr) d r)) with (min (Node ll ld lr)).
    remember (Node ll ld lr) as l eqn:El.
    simpl. rewrite Hs, Hrem. repeat split; try assumption.
    rewrite in_order_rec_app, (in_order_rec_app r (_ ++ _)).
    rewrite Hel. reflexivity.
Qed.

Lemma remove_node_elems node v :
  is_bst node = true -> fst (remove_node node v) = true ->
  exists s1 x s2,
    elems node = s1 ++ x :: s2 /\ equiv x v = true /\
    elems (snd (remove_node node v)) = s1 ++ s2.
Proof.
  induction node as [|l IHl d r IHr]; [discriminate|].
  intros Hb. pose proof Hb as Hb'.
  simpl in Hb. rewrite !andb_true_iff in Hb. destruct Hb as [[[Hl Hr] Hbl] Hbr].
  rewrite in_order_rec_Node. simpl remove_node.
  destruct (less v d) eqn:E1; [|destruct (less d v) eqn:E2].
  - destruct (remove_node l v) as [b l']; simpl in *. intros Hok.
    destruct (IHl Hbl Hok) as (s1 & x & s2 & Hel & Hx & Hel').
    exists s1, x, (s2 ++ d :: elems r).
    rewrite in_order_rec_app, (in_order_rec_app r (_ ++ _)).
    rewrite Hel, Hel'. now rewrite <- !app_assoc.
  - destruct (remove_node r v) as [b r']; simpl in *. intros Hok.
    destruct (IHr Hbr Hok) as (s1 & x & s2 & Hel & Hx & Hel').
    exists (elems l ++ d :: s1), x, s2.
    rewrite (in_order_rec_app r').
    rewrite Hel, Hel'. now rewrite <- !app_assoc.
  - intros _.
    assert (Hd : equiv d v = true) by (unfold equiv; now rewrite E1, E2).
    destruct l as [|ll ld lr].
    + exists [], d, (elems r). destruct r; simpl; auto.
    + destruct r as [|rl rd rr].
      * exists (elems (Node ll ld lr)), d, []. simpl is_null. simpl andb.
        cbv iota. simpl snd. now rewrite app_nil_r.
      * destruct (remove_min (Node rl rd rr) Hbr eq_refl)
          as (s & rr' & r' & Hmin & Hrem & Hel & _).
        exists (elems (Node ll ld lr)), d, (elems (Node rl rd rr)).
        simpl is_null. simpl andb. cbv iota.
        rewrite Hmin, Hrem. simpl snd.
        rewrite Hel. repeat split; auto.
        now rewrite !in_order_rec_Node.
Qed.

Lemma remove_node_is_bst node v :
  is_bst node = true -> is_bst (snd (remove_node node v)) = true.
Proof.
  intros Hb. destruct (fst (remove_node node v)) eqn:Hok.
  - destruct (remove_node_elems node v Hb Hok) as (s1 & x & s2 & Hel & _ & Hel').
    apply ascending_is_bst. unfold ascending. rewrite Hel'.
    apply StronglySorted_drop with x. rewrite <- Hel.
    now apply is_bst_ascending.
  - now rewrite remove_node_false.
Qed.

(** *** Membership *)

Lemma contain_node_In node v :
  contain_node node v = true ->
  exists x, In x (elems node) /\ equiv x v = true.
Proof.
  induction node as [|l IHl d r IHr]; simpl contain_node; [discriminate|].
  rewrite in_order_rec_Node.
  destruct (less v d) eqn:E1; [|destruct (less d v) eqn:E2]; intros Hc.
  - destruct (IHl Hc) as (x & Hx & Hxv). exists x. rewrite in_app_iff. auto.
  - destruct (IHr Hc) as (x & Hx & Hxv). exists x.
    rewrite in_app_iff. simpl. auto.
  - exists d. rewrite in_app_iff. simpl. split; [auto|].
    unfold equiv. now rewrite E1, E2.
Qed.

Lemma In_contain_node node v x :
  is_bst node = true -> In x (elems node) -> equiv x v = true ->
  contain_node node v = true.
Proof.
  intros Hb Hx Hxv. apply equiv_less in Hxv. destruct Hxv as [Hxv Hvx].
  induction node as [|l IHl d r IHr]; [destruct Hx|].
  simpl in Hb. rewrite !andb_true_iff in Hb. destruct Hb as [[[Hl Hr] Hbl] Hbr].
  rewrite all_values_In in Hl, Hr.
  rewrite in_order_rec_Node, in_app_iff in Hx. simpl in Hx. simpl.
  destruct (less v d) eqn:E1; [|destruct (less d v) eqn:E2; [|reflexivity]].
  - destruct Hx as [Hx|[->|Hx]]; [auto | congruence |].
    rewrite (less_trans _ _ _ E1 (Hr x Hx)) in Hvx. discriminate.
  - destruct Hx as [Hx|[->|Hx]]; [| congruence | auto].
    rewrite (less_trans _ _ _ (Hl x Hx) E2) in Hxv. discriminate.
Qed.

Lemma contain_insert_node node w v :
  is_bst node = true ->
  contain_node (snd (insert_node node w)) v = contain_node node v || equiv w v.
Proof.
  intros Hb. pose proof (insert_node_is_bst node w Hb) as Hb'.
  apply eq_true_iff_eq. rewrite orb_true_iff.
  destruct (fst (insert_node node w)) eqn:Hok.
  - destruct (insert_node_elems node w Hok) as (s1 & s2 & Hel & Hel').
    split.
    + intros Hc. apply contain_node_In in Hc. destruct Hc as (x & Hx & Hxv).
      rewrite Hel', in_app_iff in Hx. simpl in Hx.
      destruct Hx as [Hx|[->|Hx]]; [left | now right | left];
        apply In_contain_node with x; auto; rewrite Hel, in_app_iff; auto.
    + intros [Hc|Hwv].
      * apply contain_node_In in Hc. destruct Hc as (x & Hx & Hxv).
        apply In_contain_node with x; auto.
        rewrite Hel, in_app_iff in Hx. rewrite Hel', in_app_iff. simpl. tauto.
      * apply In_contain_node with w; auto.
        rewrite Hel', in_app_iff. simpl. auto.
  - rewrite (insert_node_false node w Hok). split; [auto|].
    intros [Hc|Hwv]; [assumption|].
    rewrite insert_node_fst, negb_false_iff in Hok.
    apply contain_node_In in Hok. destruct Hok as (x & Hx & Hxw).
    apply In_contain_node with x; auto.
    now apply equiv_trans with w.
Qed.

Lemma contain_remove_node node w v :
  is_bst node = true ->
  contain_node (snd (remove_node node w)) v
  = contain_node node v && negb (equiv w v).
Proof.
  intros Hb. pose proof (remove_node_is_bst node w Hb) as Hb'.
  apply eq_true_iff_eq. rewrite andb_true_iff, negb_true_iff.
  destruct (fst (remove_node node w)) eqn:Hok.
  - destruct (remove_node_elems node w Hb Hok) as (s1 & x & s2 & Hel & Hxw & Hel').
    assert (Hfar : forall y, In y (s1 ++ s2) -> equiv y x = false).
    { pose proof (is_bst_ascending node Hb) as Hs. unfold ascending in Hs.
      rewrite Hel in Hs. apply StronglySorted_app_inv in Hs.
      destruct Hs as (_ & Hs2 & H12). apply StronglySorted_inv in Hs2.
      destruct Hs2 as [_ Hx]. rewrite Forall_forall in Hx.
      intros y Hy. apply in_app_or in Hy. destruct Hy as [Hy|Hy].
      - apply less_equiv_false. apply H12; simpl; auto.
      - rewrite equiv_sym. apply less_equiv_false. auto. }
    split.
    + intros Hc. apply contain_node_In in Hc. destruct Hc as (y & Hy & Hyv).
      rewrite Hel' in Hy. split.
      * apply In_contain_node with y; auto.
        rewrite Hel. rewrite in_app_iff in *. simpl. tauto.
      * destruct (equiv w v) eqn:Hwv; [|reflexivity].
        rewrite <- (Hfar y Hy). symmetry.
        apply equiv_trans with w; [|now rewrite equiv_sym].
        apply equiv_trans with v; [assumption | now rewrite equiv_sym].
    + intros [Hc Hwv]. apply contain_node_In in Hc.
      destruct Hc as (y & Hy & Hyv).
      rewrite Hel, in_app_iff in Hy. simpl in Hy.
      assert (Hy' : In y (s1 ++ s2)).
      { rewrite in_app_iff. destruct Hy as [Hy|[<-|Hy]]; auto.
        exfalso. rewrite (equiv_trans w x v) in Hwv;
          [discriminate | now rewrite equiv_sym | assumption]. }
      apply In_contain_node with y; auto. now rewrite Hel'.
  - rewrite (remove_node_false node w Hok). split; [|tauto].
    intros Hc. split; [assumption|].
    destruct (equiv w v) eqn:Hwv; [|reflexivity].
    rewrite remove_node_fst in Hok. rewrite <- Hok. symmetry.
    apply contain_node_In in Hc. destruct Hc as (y & Hy & Hyv).
    apply In_contain_node with y; auto.
    apply equiv_trans with v; [assumption | now rewrite equiv_sym].
Qed.

(** *** The public interface and operation histories *)

Implicit Types (t : BST T) (o : op T) (ops : list (op T)).

Lemma insert_eq t v :
  insert t v
  = (fst (insert_node (root t) v), mkBST (snd (insert_node (root t) v))).
Proof. unfold insert. now destruct (insert_node (root t) v). Qed.

Lemma remove_eq t v :
  remove t v
  = (fst (remove_node (root t) v), mkBST (snd (remove_node (root t) v))).
Proof. unfold remove. now destruct (remove_node (root t) v). Qed.

Lemma run_cons o ops t :
  run (o :: ops) t
  = (fst (apply_op t o) :: fst (run ops (snd (apply_op t o))),
     snd (run ops (snd (apply_op t o)))).
Proof.
  simpl. destruct (apply_op t o) as [b t']. simpl.
  now destruct (run ops t').
Qed.

Lemma run_app_snd ops ops' t :
  snd (run (ops ++ ops') t) = snd (run ops' (snd (run ops t))).
Proof.
  revert t. induction ops as [|o ops IH]; intros t; [reflexivity|].
  rewrite <- app_comm_cons, !run_cons. simpl. apply IH.
Qed.

Lemma apply_op_is_bst t o :
  is_bst (root t) = true -> is_bst (root (snd (apply_op t o))) = true.
Proof.
  intros Hb. destruct o as [v|v]; simpl.
  - rewrite insert_eq. simpl. now apply insert_node_is_bst.
  - rewrite remove_eq. simpl. now apply remove_node_is_bst.
Qed.

Lemma run_is_bst ops t :
  is_bst (root t) = true -> is_bst (root (snd (run ops t))) = true.
Proof.
  revert t. induction ops as [|o ops IH]; intros t Hb; [assumption|].
  rewrite run_cons. simpl. apply IH. now apply apply_op_is_bst.
Qed.

Lemma ascending_NoDup (s : list T) : ascending s -> NoDup s.
Proof.
  apply StronglySorted_NoDup. intros a Ha. now rewrite less_irrefl in Ha.
Qed.

(** C1: whatever calls of [insert] and [remove] are made on an empty tree,
    the tree that results is ordered (left subtree below the node, right
    subtree above it, at every node), and [in_order] lists it in strictly
    ascending order, without repetition. *)
Theorem invariant_preservation ops :
  is_bst (root (snd (run ops BST_new))) = true /\
  ascending (in_order (snd (run ops BST_new))) /\
  NoDup (in_order (snd (run ops BST_new))).
Proof.
  assert (Hb : is_bst (root (snd (run ops (@BST_new T)))) = true)
    by now apply run_is_bst.
  assert (Hs : ascending (in_order (snd (run ops (@BST_new T)))))
    by now apply is_bst_ascending.
  auto using ascending_NoDup.
Qed.

Lemma apply_op_count t o :
  is_bst (root t) = true ->
  length (in_order (snd (apply_op t o)))
  + (if Bool.eqb (is_insert o) false && fst (apply_op t o) then 1 else 0)
  = length (in_order t)
    + (if Bool.eqb (is_insert o) true && fst (apply_op t o) then 1 else 0).
Proof.
  intros Hb. unfold in_order. destruct o as [v|v]; simpl.
  - rewrite insert_eq. simpl.
    destruct (fst (insert_node (root t) v)) eqn:Hok.
    + destruct (insert_node_elems (root t) v Hok) as (s1 & s2 & -> & ->).
      rewrite !length_app. simpl. lia.
    + now rewrite insert_node_false.
  - rewrite remove_eq. simpl.
    destruct (fst (remove_node (root t) v)) eqn:Hok.
    + destruct (remove_node_elems (root t) v Hb Hok)
        as (s1 & x & s2 & -> & _ & ->).
      rewrite !length_app. simpl. lia.
    + now rewrite remove_node_false.
Qed.

Lemma run_count ops t :
  is_bst (root t) = true ->
  length (in_order (snd (run ops t))) + successes false ops (fst (run ops t))
  = length (in_order t) + successes true ops (fst (run ops t)).
Proof.
  revert t. induction ops as [|o ops IH]; intros t Hb; [reflexivity|].
  rewrite run_cons. simpl.
  pose proof (apply_op_count t o Hb) as Hstep.
  pose proof (IH _ (apply_op_is_bst t o Hb)) as Hrest.
  lia.
Qed.

(** C7: after any calls of [insert] and [remove] on an empty tree, the
    length of [in_order] is the number of [insert] calls that returned [true]
    minus the number of [remove] calls that returned [true] (and the second
    number never exceeds the first). *)
Theorem count_conservation ops :
  length (in_order (snd (run ops BST_new)))
  = successes true ops (fst (run ops BST_new))
    - successes false ops (fst (run ops BST_new)) /\
  successes false ops (fst (run ops BST_new))
  <= successes true ops (fst (run ops BST_new)).
Proof.
  pose proof (run_count ops (@BST_new T) eq_refl) as Hc.
  simpl in Hc. lia.
Qed.

Lemma contain_apply_op t o v :
  is_bst (root t) = true ->
  contain (snd (apply_op t o)) v
  = match o with
    | Insert w => contain t v || equiv w v
    | Remove w => contain t v && negb (equiv w v)
    end.
Proof.
  intros Hb. unfold contain. destruct o as [w|w]; simpl.
  - rewrite insert_eq. simpl. now apply contain_insert_node.
  - rewrite remove_eq. simpl. now apply contain_remove_node.
Qed.

Lemma contain_stays_true ops t v :
  is_bst (root t) = true -> contain t v = true ->
  (forall w, In (Remove w) ops -> equiv w v = false) ->
  contain (snd (run ops t)) v = true.
Proof.
  revert t. induction ops as [|o ops IH]; intros t Hb Hc Hno; [assumption|].
  rewrite run_cons. simpl. apply IH.
  - now apply apply_op_is_bst.
  - rewrite contain_apply_op by assumption. rewrite Hc.
    destruct o as [w|w]; [reflexivity|].
    rewrite (Hno w); [reflexivity | now left].
  - intros w Hw. apply Hno. now right.
Qed.

Lemma contain_stays_false ops t v :
  is_bst (root t) = true -> contain t v = false ->
  (forall w, In (Insert w) ops -> equiv w v = false) ->
  contain (snd (run ops t)) v = false.
Proof.
  revert t. induction ops as [|o ops IH]; intros t Hb Hc Hno; [assumption|].
  rewrite run_cons. simpl. apply IH.
  - now apply apply_op_is_bst.
  - rewrite contain_apply_op by assumption. rewrite Hc.
    destruct o as [w|w]; [|reflexivity].
    rewrite (Hno w); [reflexivity | now left].
  - intros w Hw. apply Hno. now right.
Qed.

(** C5: membership after a history of calls on an empty tree.  A value
    whose insertion returned [true] and that no later call removed is
    contained; a value that was never inserted, or whose removal was not
    followed by a new insertion, is not.  Values are told apart by the
    ordering: [remove(w)] removes [v] exactly when [w] is equivalent to
    [v]. *)
Theorem round_trip_membership ops v :
  (forall before after,
      ops = before ++ Insert v :: after ->
      fst (insert (snd (run before BST_new)) v) = true ->
      (forall w, In (Remove w) after -> equiv w v = false) ->
      contain (snd (run ops BST_new)) v = true) /\
  ((forall w, In (Insert w) ops -> equiv w v = false) ->
   contain (snd (run ops BST_new)) v = false) /\
  (forall before after,
      ops = before ++ Remove v :: after ->
      (forall w, In (Insert w) after -> equiv w v = false) ->
      contain (snd (run ops BST_new)) v = false).
Proof.
  repeat split.
  - intros before after -> _ Hno.
    rewrite run_app_snd, run_cons. cbn [snd].
    pose proof (run_is_bst before (@BST_new T) eq_refl) as Hb.
    apply contain_stays_true; [| |assumption].
    + now apply (apply_op_is_bst _ (Insert v)).
    + rewrite (contain_apply_op _ (Insert v)) by assumption.
      now rewrite equiv_refl, orb_true_r.
  - intros Hno. now apply contain_stays_false.
  - intros before after -> Hno.
    rewrite run_app_snd, run_cons. cbn [snd].
    pose proof (run_is_bst before (@BST_new T) eq_refl) as Hb.
    apply contain_stays_false; [| |assumption].
    + now apply (apply_op_is_bst _ (Remove v)).
    + rewrite (contain_apply_op _ (Remove v)) by assumption.
      now rewrite equiv_refl, andb_false_r.
Qed.

End StrictWeak.

End Ordered.

(** ** Where a call acts: descent paths *)

Section Descents.

Context {T : Type} `{Less T}.

Implicit Types (node l r : TreeNode T) (v d : T) (p : list dir) (t : BST T).

Lemma size_assign_at node p (content slot : TreeNode T) :
  slot_at node p = Some slot ->
  size (assign_at node p content) + size slot = size node + size content.
Proof.
  revert node. induction p as [|step p IH]; intros node; simpl.
  - destruct node; intros [= <-]; simpl; lia.
  - destruct step, node as [|l d r]; try discriminate;
      intros Hs; simpl; specialize (IH _ Hs); lia.
Qed.

Lemma slot_at_is_bst node p (slot : TreeNode T) :
  is_bst node = true -> slot_at node p = Some slot -> is_bst slot = true.
Proof.
  revert node. induction p as [|step p IH]; intros node Hb; simpl.
  - destruct node; now intros [= <-].
  - destruct step, node as [|l d r]; try discriminate;
      simpl in Hb; rewrite !andb_true_iff in Hb; apply IH; tauto.
Qed.

(** The descent of a call always ends, either at a null slot or at a node
    equivalent to the value looked for. *)
Lemma descent_ends node v :
  slot_at node (descent node v) = Some nullptr \/
  exists l d r,
    slot_at node (descent node v) = Some (Node l d r) /\ equiv v d = true.
Proof.
  induction node as [|l IHl d r IHr]; simpl; [now left|].
  destruct (less v d) eqn:E1; [exact IHl|].
  destruct (less d v) eqn:E2; [exact IHr|].
  right. exists l, d, r. unfold equiv. now rewrite E1, E2.
Qed.

Lemma insert_node_descent node v :
  (slot_at node (descent node v) = Some nullptr ->
   insert_node node v
   = (true, assign_at node (descent node v) (TreeNode_new v))) /\
  (forall l d r,
      slot_at node (descent node v) = Some (Node l d r) ->
      equiv v d = true /\ insert_node node v = (false, node)).
Proof.
  induction node as [|l' IHl d' r' IHr]; simpl.
  - split; [reflexivity | discriminate].
  - destruct (less v d') eqn:E1; [|destruct (less d' v) eqn:E2]; simpl.
    + destruct IHl as [IHn IHf]. split.
      * intros Hs. now rewrite (IHn Hs).
      * intros l d r Hs. destruct (IHf l d r Hs) as [He ->]. auto.
    + destruct IHr as [IHn IHf]. split.
      * intros Hs. now rewrite (IHn Hs).
      * intros l d r Hs. destruct (IHf l d r Hs) as [He ->]. auto.
    + split; [discriminate|].
      intros l d r [= -> -> ->]. unfold equiv. now rewrite E1, E2.
Qed.

(** C2: [insert] follows the comparisons of [descent].  When the descent
    ends at a null slot, the call returns [true] and the new tree is the old
    one with a fresh node holding the value in that slot, one node more in
    all; when it ends at an equivalent node, the call returns [false] and the
    tree is the one it was given.  The descent always ends in one of these
    two ways. *)
Theorem insert_descent t v :
  (slot_at (root t) (descent (root t) v) = Some nullptr ->
   insert t v
   = (true, mkBST (assign_at (root t) (descent (root t) v) (TreeNode_new v)))
   /\ size (root (snd (insert t v))) = S (size (root t))) /\
  (forall l d r,
      slot_at (root t) (descent (root t) v) = Some (Node l d r) ->
      equiv v d = true /\ insert t v = (false, t) /\
      size (root (snd (insert t v))) = size (root t)) /\
  (slot_at (root t) (descent (root t) v) = Some nullptr \/
   exists l d r,
     slot_at (root t) (descent (root t) v) = Some (Node l d r)).
Proof.
  destruct t as [node]. unfold insert. simpl root.
  destruct (insert_node_descent node v) as [Hnew Hdup].
  split; [|split].
  - intros Hs. rewrite (Hnew Hs). split; [reflexivity|]. simpl.
    pose proof (size_assign_at node _ (TreeNode_new v) Hs) as Hsz.
    simpl in Hsz. lia.
  - intros l d r Hs. destruct (Hdup l d r Hs) as [He ->]. auto.
  - destruct (descent_ends node v) as [Hs|(l & d & r & Hs & _)]; eauto.
Qed.

(** At the node where the descent of [remove] ends, the call behaves as a
    call on that node, and the tree changes in that slot only. *)
Lemma remove_node_descent node v l d r :
  slot_at node (descent node v) = Some (Node l d r) ->
  less v d = false /\ less d v = false /\
  remove_node node v
  = (fst (remove_node (Node l d r) v),
     assign_at node (descent node v) (snd (remove_node (Node l d r) v))) /\
  remove_cases node v = remove_cases (Node l d r) v.
Proof.
  induction node as [|l' IHl d' r' IHr]; [discriminate|].
  simpl descent. simpl remove_cases.
  destruct (less v d') eqn:E1; [|destruct (less d' v) eqn:E2].
  - simpl slot_at. intros Hs.
    destruct (IHl Hs) as (H1 & H2 & H3 & H4).
    repeat split; try assumption.
    cbn [remove_node assign_at]. rewrite E1, H3. reflexivity.
  - simpl slot_at. intros Hs.
    destruct (IHr Hs) as (H1 & H2 & H3 & H4).
    repeat split; try assumption.
    cbn [remove_node assign_at]. rewrite E1, E2, H3. reflexivity.
  - simpl slot_at. intros [= -> -> ->].
    repeat split; try assumption.
    + cbn [assign_at]. now destruct (remove_node (Node l d r) v).
    + simpl. now rewrite E1, E2.
Qed.

End Descents.

(** ** The cases of removal, failures, and undoing an insertion *)

Section Removal.

Context {T : Type} `{Less T} `{!StrictWeakOrder T}.

Implicit Types (node l r : TreeNode T) (v d : T) (t : BST T).

Local Notation elems node := (in_order_rec node []).

Lemma min_In node s (a b : TreeNode T) :
  min node = Node a s b -> In s (elems node).
Proof.
  induction node as [|l IHl d r _]; [discriminate|].
  rewrite in_order_rec_Node, in_app_iff. simpl min.
  destruct l as [|ll ld lr]; simpl is_null; cbv iota.
  - intros [= _ -> _]. simpl. auto.
  - intros Hmin. left. now apply IHl.
Qed.

(** The descent for the value of the leftmost node ends at that node. *)
Lemma descent_min r s (rr : TreeNode T) :
  is_bst r = true -> min r = Node nullptr s rr ->
  slot_at r (descent r s) = Some (Node nullptr s rr).
Proof.
  induction r as [|l IHl d r _]; [discriminate|].
  intros Hb. simpl in Hb. rewrite !andb_true_iff in Hb.
  destruct Hb as [[[Hl _] Hbl] _].
  simpl min. destruct l as [|ll ld lr]; simpl is_null; cbv iota.
  - intros [= -> ->]. simpl. now rewrite less_irrefl.
  - intros Hmin.
    assert (Hs : less s d = true).
    { rewrite all_values_In in Hl. apply Hl. eapply min_In; eassumption. }
    remember (Node ll ld lr) as l eqn:El.
    simpl. rewrite Hs. simpl. now apply IHl.
Qed.

(** C3: removal of a value found at a node with two children, in an
    ordered tree.  The node receives the value [s] of the leftmost node of
    its right subtree, which is below every other value of that subtree, and
    [s] is then removed from the right subtree.  That inner call ends its
    descent at the leftmost node, which has no left child, succeeds, and
    takes the leaf branch or the only-right-child branch: the two-children
    branch is entered once. *)
Theorem remove_two_children t v l d r :
  is_bst (root t) = true ->
  slot_at (root t) (descent (root t) v) = Some (Node l d r) ->
  is_null l = false -> is_null r = false ->
  exists s rr r',
    min r = Node nullptr s rr /\
    remove t v
    = (true, mkBST (assign_at (root t) (descent (root t) v) (Node l s r'))) /\
    remove_node r s = (true, r') /\
    slot_at r (descent r s) = Some (Node nullptr s rr) /\
    r' = assign_at r (descent r s) rr /\
    (remove_cases r s = [case_leaf] \/ remove_cases r s = [case_only_right]) /\
    remove_cases (root t) v = case_two_children :: remove_cases r s /\
    all_values (fun x => less s x) r' = true.
Proof.
  intros Hb Hslot Hl Hr.
  pose proof (slot_at_is_bst _ _ Hb Hslot) as Hbn.
  assert (Hbr : is_bst r = true).
  { simpl in Hbn. rewrite !andb_true_iff in Hbn. tauto. }
  destruct (remove_min r Hbr Hr) as (s & rr & r' & Hmin & Hrem & Hel & Hcase).
  destruct (remove_node_descent _ _ Hslot) as (E1 & E2 & Hnode & Hcases).
  pose proof (descent_min r Hbr Hmin) as Hdm.
  exists s, rr, r'. repeat split; try assumption.
  - rewrite remove_eq, Hnode. simpl. rewrite E1, E2, Hl, Hr. simpl.
    now rewrite Hmin, Hrem.
  - destruct (remove_node_descent _ _ Hdm) as (_ & _ & Hinner & _).
    rewrite Hrem in Hinner. injection Hinner as _ ->.
    simpl. rewrite less_irrefl. now destruct rr.
  - rewrite Hcases. simpl. rewrite E1, E2, Hl, Hr. simpl. now rewrite Hmin.
  - apply all_values_In. intros x Hx.
    pose proof (is_bst_ascending r Hbr) as Hs. unfold ascending in Hs.
    rewrite Hel in Hs. apply StronglySorted_inv in Hs. destruct Hs as [_ Hs].
    rewrite Forall_forall in Hs. auto.
Qed.

Lemma find_node_at_null node v :
  contain_node node v = false -> find_node_at node v = nullptr.
Proof.
  induction node as [|l IHl d r IHr]; simpl; [reflexivity|].
  destruct (less v d); [assumption|].
  destruct (less d v); [assumption | discriminate].
Qed.

(** C4: failures show only in the returned value.  If no stored value is
    equivalent to [v], then [remove] returns [false], [contain] returns
    [false] and [find_node] returns the null pointer; if the tree is ordered
    and stores a value equivalent to [v], then [insert] returns [false].  A
    call of [insert] or [remove] that returns [false] hands back the tree it
    was given, and one made on an ordered tree hands back an ordered tree.
    [contain] and [find_node] are [const] members: they produce a value and
    no tree. *)
Theorem failures_are_no_ops t v :
  ((forall x, In x (in_order t) -> equiv x v = false) ->
   remove t v = (false, t) /\ contain t v = false /\ find_node t v = nullptr)
  /\
  (is_bst (root t) = true ->
   (exists x, In x (in_order t) /\ equiv x v = true) ->
   insert t v = (false, t)) /\
  (fst (insert t v) = false -> snd (insert t v) = t) /\
  (fst (remove t v) = false -> snd (remove t v) = t) /\
  (is_bst (root t) = true ->
   is_bst (root (snd (insert t v))) = true /\
   is_bst (root (snd (remove t v))) = true).
Proof.
  destruct t as [node]. unfold in_order, contain, find_node.
  rewrite insert_eq, remove_eq. simpl root. simpl fst. simpl snd.
  split; [|split; [|split; [|split]]].
  - intros Habs.
    assert (Hc : contain_node node v = false).
    { destruct (contain_node node v) eqn:Hc; [|reflexivity].
      apply contain_node_In in Hc. destruct Hc as (x & Hx & Hxv).
      now rewrite (Habs x Hx) in Hxv. }
    rewrite remove_node_false; rewrite remove_node_fst; auto.
    rewrite Hc. auto using find_node_at_null.
  - intros Hb (x & Hx & Hxv).
    pose proof (In_contain_node node v x Hb Hx Hxv) as Hc.
    rewrite insert_node_false; rewrite insert_node_fst, Hc; reflexivity.
  - intros Hf. now rewrite insert_node_false.
  - intros Hf. now rewrite remove_node_false.
  - intros Hb. auto using insert_node_is_bst, remove_node_is_bst.
Qed.

Lemma remove_insert_node node v :
  contain_node node v = false ->
  remove_node (snd (insert_node node v)) v = (true, node) /\
  remove_cases (snd (insert_node node v)) v = [case_leaf].
Proof.
  induction node as [|l IHl d r IHr]; simpl.
  - intros _. now rewrite less_irrefl.
  - destruct (less v d) eqn:E1; [|destruct (less d v) eqn:E2; [|discriminate]];
      intros Hc.
    + destruct (IHl Hc) as [Hrem Hcase].
      destruct (insert_node l v) as [b l']. simpl in *.
      now rewrite E1, Hrem.
    + destruct (IHr Hc) as [Hrem Hcase].
      destruct (insert_node r v) as [b r']. simpl in *.
      now rewrite E1, E2, Hrem.
Qed.

(** C10: inserting a value that the tree does not contain and removing it
    again gives back the very same tree, hence the same three traversals.
    The insertion returns [true] and hangs a childless node in the null slot
    where its descent ends; the removal returns [true] through the leaf
    branch. *)
Theorem insert_remove_round_trip t v :
  contain t v = false ->
  insert t v
  = (true, mkBST (assign_at (root t) (descent (root t) v) (TreeNode_new v))) /\
  remove (snd (insert t v)) v = (true, t) /\
  remove_cases (root (snd (insert t v))) v = [case_leaf] /\
  pre_order (snd (remove (snd (insert t v)) v)) = pre_order t /\
  in_order (snd (remove (snd (insert t v)) v)) = in_order t /\
  post_order (snd (remove (snd (insert t v)) v)) = post_order t.
Proof.
  destruct t as [node]. unfold contain. simpl root. intros Hc.
  destruct (remove_insert_node node v Hc) as [Hrem Hcase].
  assert (Hback : remove (snd (insert (mkBST node) v)) v = (true, mkBST node)).
  { rewrite remove_eq, insert_eq. simpl. now rewrite Hrem. }
  rewrite Hback. repeat split; try reflexivity.
  - destruct (insert_node_descent node v) as [Hnew _].
    destruct (descent_ends node v) as [Hs|(l & d & r & Hs & _)].
    + unfold insert. simpl root. now rewrite (Hnew Hs).
    + exfalso. clear - Hc Hs.
      revert Hs Hc. induction node as [|l' IHl d' r' IHr]; simpl.
      * discriminate.
      * destruct (less v d'); [exact IHl|].
        destruct (less d' v); [exact IHr | discriminate].
  - rewrite insert_eq. simpl. assumption.
Qed.

End Removal.

(** ** Termination *)

Section Termination.

Context {T : Type} `{Less T}.

Implicit Types (node l r : TreeNode T) (v d : T) (result : list T).

Lemma min_fuel_enough fuel node :
  is_null node = false -> height node <= fuel ->
  min_fuel fuel node = Some (min node).
Proof.
  revert node. induction fuel as [|fuel IH]; intros [|l d r]; simpl;
    try discriminate; try lia.
  intros _ Hh. destruct l as [|ll ld lr]; [reflexivity|].
  apply IH; [reflexivity | lia].
Qed.

Lemma max_fuel_enough fuel node :
  is_null node = false -> height node <= fuel ->
  max_fuel fuel node = Some (max node).
Proof.
  revert node. induction fuel as [|fuel IH]; intros [|l d r]; simpl;
    try discriminate; try lia.
  intros _ Hh. destruct r as [|rl rd rr]; [reflexivity|].
  apply IH; [reflexivity | lia].
Qed.

Lemma insert_fuel_enough fuel node v :
  height node < fuel -> insert_fuel fuel node v = Some (insert_node node v).
Proof.
  revert node. induction fuel as [|fuel IH]; intros [|l d r]; simpl;
    try lia; [reflexivity|].
  intros Hh. destruct (less v d); [|destruct (less d v); [|reflexivity]];
    rewrite IH by lia; simpl.
  - now destruct (insert_node l v).
  - now destruct (insert_node r v).
Qed.

Lemma contain_fuel_enough fuel node v :
  height node < fuel -> contain_fuel fuel node v = Some (contain_node node v).
Proof.
  revert node. induction fuel as [|fuel IH]; intros [|l d r]; simpl;
    try lia; [reflexivity|].
  intros Hh. destruct (less v d); [|destruct (less d v); [|reflexivity]];
    apply IH; lia.
Qed.

Lemma find_node_fuel_enough fuel node v :
  height node < fuel ->
  find_node_fuel fuel node v = Some (find_node_at node v).
Proof.
  revert node. induction fuel as [|fuel IH]; intros [|l d r]; simpl;
    try lia; [reflexivity|].
  intros Hh. destruct (less v d); [|destruct (less d v); [|reflexivity]];
    apply IH; lia.
Qed.

Lemma remove_fuel_enough fuel node v :
  height node < fuel -> remove_fuel fuel node v = Some (remove_node node v).
Proof.
  revert node v. induction fuel as [|fuel IH]; intros [|l d r] v;
    try (simpl; lia); [reflexivity|].
  intros Hh. simpl in Hh. cbn [remove_fuel remove_node].
  destruct (less v d); [|destruct (less d v)].
  - rewrite IH by lia. simpl. now destruct (remove_node l v).
  - rewrite IH by lia. simpl. now destruct (remove_node r v).
  - destruct (is_null l && is_null r); [reflexivity|].
    destruct (is_null l); [reflexivity|].
    destruct (is_null r) eqn:Hr; [reflexivity|].
    rewrite min_fuel_enough by (auto; lia). simpl.
    destruct (min_Node r Hr) as (s & rr & ->).
    rewrite IH by lia. reflexivity.
Qed.

Lemma in_order_fuel_enough fuel node result :
  height node < fuel ->
  in_order_fuel fuel node result = Some (in_order_rec node result).
Proof.
  revert node result. induction fuel as [|fuel IH]; intros [|l d r] result;
    simpl; try lia; [reflexivity|].
  intros Hh. rewrite IH by lia. simpl. apply IH. lia.
Qed.

Lemma pre_order_fuel_enough fuel node result :
  height node < fuel ->
  pre_order_fuel fuel node result = Some (pre_order_rec node result).
Proof.
  revert node result. induction fuel as [|fuel IH]; intros [|l d r] result;
    simpl; try lia; [reflexivity|].
  intros Hh. rewrite IH by lia. simpl. apply IH. lia.
Qed.

Lemma post_order_fuel_enough fuel node result :
  height node < fuel ->
  post_order_fuel fuel node result = Some (post_order_rec node result).
Proof.
  revert node result. induction fuel as [|fuel IH]; intros [|l d r] result;
    simpl; try lia; [reflexivity|].
  intros Hh. rewrite IH by lia. simpl. now rewrite IH by lia.
Qed.

(** C9: every operation returns.  Run with a budget of nested calls (loop
    iterations for [min] and [max]) larger than the height of the tree, each
    member function returns, and returns what its recursive definition
    gives; this includes [remove] when it calls itself on the right subtree
    in the two-children case. *)
Theorem operations_terminate node v result fuel :
  height node < fuel ->
  insert_fuel fuel node v = Some (insert_node node v) /\
  remove_fuel fuel node v = Some (remove_node node v) /\
  contain_fuel fuel node v = Some (contain_node node v) /\
  find_node_fuel fuel node v = Some (find_node_at node v) /\
  in_order_fuel fuel node result = Some (in_order_rec node result) /\
  pre_order_fuel fuel node result = Some (pre_order_rec node result) /\
  post_order_fuel fuel node result = Some (post_order_rec node result) /\
  (is_null node = false ->
   min_fuel fuel node = Some (min node) /\
   max_fuel fuel node = Some (max node)).
Proof.
  intros Hh.
  repeat split;
    auto using insert_fuel_enough, remove_fuel_enough, contain_fuel_enough,
      find_node_fuel_enough, in_order_fuel_enough, pre_order_fuel_enough,
      post_order_fuel_enough;
    [apply min_fuel_enough | apply max_fuel_enough]; auto; lia.
Qed.

End Termination.

(** ** The integers as element type *)

#[export] Instance Z_strict_weak_order : StrictWeakOrder Z.
Proof.
  split; unfold equiv, less, Z_less.
  - intros a. apply Z.ltb_irrefl.
  - intros a b c. rewrite !Z.ltb_lt. lia.
  - intros a b c. rewrite !andb_true_iff, !negb_true_iff, !Z.ltb_ge. lia.
Qed.

Section Scenario.

Local Open Scope Z_scope.

(** C6: inserting 50, 30, 70, 20, 40, 60, 80 into an empty tree and then
    removing 50.  The seven insertions succeed and build the full tree of
    height three; the removal succeeds through the two-children branch, the
    root then holds 60, [in_order] gives 20, 30, 40, 60, 70, 80 and 50 is no
    longer contained. *)
Theorem removal_scenario :
  fst (run seven_inserts BST_new) = [true; true; true; true; true; true; true]
  /\ root seven = Node seven_left 50 seven_right
  /\ fst (remove seven 50) = true
  /\ in_order (snd (remove seven 50)) = [20; 30; 40; 60; 70; 80]
  /\ contain (snd (remove seven 50)) 50 = false
  /\ root (snd (remove seven 50))
     = Node seven_left 60 (Node nullptr 70 (TreeNode_new 80))
  /\ remove_cases (root seven) 50 = [case_two_children; case_leaf].
Proof. repeat split; reflexivity. Qed.

(** Removing the leaf 20 from the same tree. *)
Example leaf_removal :
  remove_cases (root seven) 20 = [case_leaf] /\
  in_order (snd (remove seven 20)) = [30; 40; 50; 60; 70; 80].
Proof. split; reflexivity. Qed.

(** Inserting 10, 5, 1 and removing 5, which has a left child only. *)
Example single_child_splice :
  let t := snd (run (map (@Insert Z) [10; 5; 1]) BST_new) in
  remove_cases (root t) 5 = [case_only_left] /\
  root (snd (remove t 5)) = Node (TreeNode_new 1) 10 nullptr /\
  in_order (snd (remove t 5)) = [1; 10].
Proof. repeat split; reflexivity. Qed.

(** A second insertion of a stored value is rejected. *)
Example duplicate_insert : insert seven 40 = (false, seven).
Proof. reflexivity. Qed.

(** A freshly constructed tree. *)
Example empty_tree :
  contain BST_new 7 = false /\ remove BST_new 7 = (false, BST_new) /\
  in_order (@BST_new Z) = [] /\ pre_order (@BST_new Z) = [] /\
  post_order (@BST_new Z) = [].
Proof. repeat split; reflexivity. Qed.

End Scenario.

(** ** The theorems at work on the integer tree *)

Section Instances.

Local Open Scope Z_scope.

(** Settles a side condition [In (C w) ops -> equiv w v = false] on a
    concrete history, call by call. *)
Ltac each_call w Hw :=
  intros w Hw; simpl in Hw;
  repeat (destruct Hw as [Hw|Hw];
          [try discriminate Hw; injection Hw as <-; reflexivity|]);
  contradiction.

Lemma invariant_preservation_witness :
  is_bst (root (snd (run sample_history BST_new))) = true /\
  ascending (in_order (snd (run sample_history BST_new))) /\
  NoDup (in_order (snd (run sample_history BST_new))).
Proof.
  exact (@invariant_preservation Z Z_less Z_strict_weak_order sample_history).
Defined.

Lemma count_conservation_witness :
  (length (in_order (snd (run sample_history BST_new)))
   = successes true sample_history (fst (run sample_history BST_new))
     - successes false sample_history (fst (run sample_history BST_new)))%nat
  /\
  (successes false sample_history (fst (run sample_history BST_new))
   <= successes true sample_history (fst (run sample_history BST_new)))%nat.
Proof.
  exact (@count_conservation Z Z_less Z_strict_weak_order sample_history).
Defined.

Lemma remove_two_children_witness :
  is_bst (root seven) = true /\
  slot_at (root seven) (descent (root seven) 50)
  = Some (Node seven_left 50 seven_right) /\
  exists s rr r',
    min seven_right = Node nullptr s rr /\
    remove seven 50
    = (true,
       mkBST (assign_at (root seven) (descent (root seven) 50)
                (Node seven_left s r'))) /\
    remove_node seven_right s = (true, r') /\
    slot_at seven_right (descent seven_right s) = Some (Node nullptr s rr) /\
    r' = assign_at seven_right (descent seven_right s) rr /\
    (remove_cases seven_right s = [case_leaf] \/
     remove_cases seven_right s = [case_only_right]) /\
    remove_cases (root seven) 50
    = case_two_children :: remove_cases seven_right s /\
    all_values (fun x => less s x) r' = true.
Proof.
  split; [reflexivity | split; [reflexivity|]].
  exact (@remove_two_children Z Z_less Z_strict_weak_order
           seven 50 seven_left 50 seven_right
           eq_refl eq_refl eq_refl eq_refl).
Defined.

Lemma failures_are_no_ops_witness :
  (remove seven 55 = (false, seven) /\ contain seven 55 = false /\
   find_node seven 55 = nullptr) /\
  insert seven 40 = (false, seven).
Proof.
  split.
  - apply (@failures_are_no_ops Z Z_less Z_strict_weak_order seven 55).
    intros x Hx. vm_compute in Hx.
    repeat (destruct Hx as [<-|Hx]; [reflexivity|]). contradiction.
  - apply (@failures_are_no_ops Z Z_less Z_strict_weak_order seven 40).
    + reflexivity.
    + exists 40. split; [vm_compute; tauto | reflexivity].
Defined.

Lemma round_trip_membership_witness :
  contain (snd (run sample_history BST_new)) 30 = true /\
  contain (snd (run sample_history BST_new)) 10 = false /\
  contain (snd (run sample_history BST_new)) 50 = false.
Proof.
  split; [|split].
  - apply (@round_trip_membership Z Z_less Z_strict_weak_order
             sample_history 30)
      with (before := [Insert 50])
           (after := map (@Insert Z) [70; 20; 40; 60; 80]
                     ++ [Remove 50; Remove 50; Insert 20; Insert 55]).
    + reflexivity.
    + reflexivity.
    + each_call w Hw.
  - apply (@round_trip_membership Z Z_less Z_strict_weak_order
             sample_history 10).
    each_call w Hw.
  - apply (@round_trip_membership Z Z_less Z_strict_weak_order
             sample_history 50)
      with (before := seven_inserts ++ [Remove 50])
           (after := [Insert 20; Insert 55]).
    + reflexivity.
    + each_call w Hw.
Defined.

Lemma operations_terminate_witness :
  (height (root seven) < 4)%nat /\
  insert_fuel 4 (root seven) 65 = Some (insert_node (root seven) 65) /\
  remove_fuel 4 (root seven) 50 = Some (remove_node (root seven) 50) /\
  min_fuel 4 (root seven) = Some (min (root seven)).
Proof.
  assert (Hh : (height (root seven) < 4)%nat) by (vm_compute; lia).
  split; [exact Hh|].
  split; [apply (operations_terminate (root seven) 65 [] Hh)|].
  split; [apply (operations_terminate (root seven) 50 [] Hh)|].
  apply (operations_terminate (root seven) 50 [] Hh). reflexivity.
Defined.

Lemma insert_remove_round_trip_witness :
  contain seven 55 = false /\
  remove (snd (insert seven 55)) 55 = (true, seven) /\
  pre_order (snd (remove (snd (insert seven 55)) 55)) = pre_order seven.
Proof.
  split; [reflexivity|].
  split;
    apply (@insert_remove_round_trip Z Z_less Z_strict_weak_order seven 55);
    reflexivity.
Defined.

End Instances.

(** * Further properties of the operations *)

Section Queries.

Context {T : Type} `{Less T}.

Implicit Types (node l r : TreeNode T) (v w d : T) (t : BST T).

Local Notation elems node := (in_order_rec node []).

Lemma find_node_at_descent node v :
  slot_at node (descent node v) = Some (find_node_at node v).
Proof.
  induction node as [|l IHl d r IHr]; simpl; [reflexivity|].
  destruct (less v d); [assumption|].
  destruct (less d v); [assumption | reflexivity].
Qed.

Lemma find_node_at_is_null node v :
  is_null (find_node_at node v) = negb (contain_node node v).
Proof.
  induction node as [|l IHl d r IHr]; simpl; [reflexivity|].
  destruct (less v d); [assumption|].
  destruct (less d v); [assumption | reflexivity].
Qed.

Lemma find_node_at_equiv node v l d r :
  find_node_at node v = Node l d r -> equiv d v = true.
Proof.
  induction node as [|l' IHl d' r' IHr]; simpl; [discriminate|].
  destruct (less v d') eqn:E1; [assumption|].
  destruct (less d' v) eqn:E2; [assumption|].
  intros [= -> -> ->]. unfold equiv. now rewrite E1, E2.
Qed.

(** [find_node] and [contain] agree on every tree: the pointer returned is
    null exactly when [contain] answers [false]; otherwise it is the node at
    which the descent for the value ends, and the value stored there is
    equivalent to the one looked for. *)
Theorem find_node_agrees_with_contain t v :
  is_null (find_node t v) = negb (contain t v) /\
  slot_at (root t) (descent (root t) v) = Some (find_node t v) /\
  (forall l d r, find_node t v = Node l d r -> equiv d v = true).
Proof.
  unfold find_node, contain. repeat split.
  - apply find_node_at_is_null.
  - apply find_node_at_descent.
  - apply find_node_at_equiv.
Qed.

(** The value returned by a mutating call is decided by membership, on every
    tree: [insert] returns [true] exactly when the value was not contained,
    [remove] exactly when it was. *)
Theorem return_values t v :
  fst (insert t v) = negb (contain t v) /\ fst (remove t v) = contain t v.
Proof.
  rewrite insert_eq, remove_eq. unfold contain. simpl. split.
  - apply insert_node_fst.
  - apply remove_node_fst.
Qed.

Lemma remove_node_left_null node v l d r :
  slot_at node (descent node v) = Some (Node l d r) -> is_null l = true ->
  remove_node node v = (true, assign_at node (descent node v) r).
Proof.
  intros Hs Hl. destruct (remove_node_descent _ _ Hs) as (E1 & E2 & -> & _).
  simpl. rewrite E1, E2, Hl. now destruct l, r.
Qed.

Lemma remove_node_right_null node v l d r :
  slot_at node (descent node v) = Some (Node l d r) -> is_null r = true ->
  remove_node node v = (true, assign_at node (descent node v) l).
Proof.
  intros Hs Hr. destruct (remove_node_descent _ _ Hs) as (E1 & E2 & -> & _).
  simpl. rewrite E1, E2, Hr. now destruct l, r.
Qed.

(** Removal at a node with at most one child, on every tree: the slot that
    held the node receives the node's right subtree when there is no left
    child and its left subtree when there is no right child (a null pointer
    for a leaf); the rest of the tree is untouched and the tree has one node
    less. *)
Theorem remove_splices t v l d r :
  slot_at (root t) (descent (root t) v) = Some (Node l d r) ->
  is_null l || is_null r = true ->
  remove t v
  = (true,
     mkBST (assign_at (root t) (descent (root t) v)
              (if is_null l then r else l))) /\
  S (size (root (snd (remove t v)))) = size (root t).
Proof.
  intros Hs Hnull. rewrite remove_eq.
  assert (Hrem : remove_node (root t) v
                 = (true, assign_at (root t) (descent (root t) v)
                            (if is_null l then r else l))).
  { destruct (is_null l) eqn:Hl.
    - eapply remove_node_left_null; eassumption.
    - simpl in Hnull. eapply remove_node_right_null; eassumption. }
  rewrite Hrem. split; [reflexivity|]. simpl.
  pose proof (size_assign_at (root t) _ (if is_null l then r else l) Hs) as Hsz.
  simpl in Hsz. destruct l, r; simpl in *; try discriminate; lia.
Qed.

Lemma insert_node_height node v :
  height node <= height (snd (insert_node node v)) <= S (height node).
Proof.
  induction node as [|l IHl d r IHr]; simpl; [lia|].
  destruct (less v d); [|destruct (less d v)].
  - destruct (insert_node l v) as [b l']; simpl in *. lia.
  - destruct (insert_node r v) as [b r']; simpl in *. lia.
  - simpl. lia.
Qed.

Lemma remove_node_height node v :
  height (snd (remove_node node v)) <= height node.
Proof.
  revert v. induction node as [|l IHl d r IHr]; intros v; simpl; [lia|].
  destruct (less v d); [|destruct (less d v)].
  - specialize (IHl v). destruct (remove_node l v) as [b l']; simpl in *. lia.
  - specialize (IHr v). destruct (remove_node r v) as [b r']; simpl in *. lia.
  - destruct (is_null l && is_null r); [simpl; lia|].
    destruct (is_null l); [simpl; lia|].
    destruct (is_null r); [simpl; lia|].
    destruct (min r) as [|a s b]; simpl; [lia|].
    specialize (IHr s). lia.
Qed.

(** How the mutating calls change the height, on every tree: [insert] never
    lowers it and raises it by at most one, [remove] never raises it. *)
Theorem height_after_call t v :
  height (root t) <= height (root (snd (insert t v))) <= S (height (root t))
  /\ height (root (snd (remove t v))) <= height (root t).
Proof.
  rewrite insert_eq, remove_eq. simpl. split.
  - apply insert_node_height.
  - apply remove_node_height.
Qed.

End Queries.

Section OrderedQueries.

Context {T : Type} `{Less T} `{!StrictWeakOrder T}.

Implicit Types (node l r : TreeNode T) (v w d : T) (t : BST T).

Local Notation elems node := (in_order_rec node []).

Lemma less_asym v w : less v w = true -> less w v = false.
Proof.
  intros Hvw. destruct (less w v) eqn:Hwv; [|reflexivity].
  rewrite <- (less_irrefl v). symmetry. now apply less_trans with w.
Qed.

Lemma min_first node :
  is_null node = false ->
  exists s rr rest, min node = Node nullptr s rr /\ elems node = s :: rest.
Proof.
  induction node as [|l IHl d r _]; [discriminate|]. intros _.
  rewrite in_order_rec_Node. simpl min.
  destruct l as [|ll ld lr]; simpl is_null; cbv iota.
  - now exists d, r, (elems r).
  - destruct (IHl eq_refl) as (s & rr & rest & -> & ->).
    now exists s, rr, (rest ++ d :: elems r).
Qed.

Lemma max_last node :
  is_null node = false ->
  exists s ll rest, max node = Node ll s nullptr /\ elems node = rest ++ [s].
Proof.
  induction node as [|l _ d r IHr]; [discriminate|]. intros _.
  rewrite in_order_rec_Node. simpl max.
  destruct r as [|rl rd rr]; simpl is_null; cbv iota.
  - now exists d, l, (elems l).
  - destruct (IHr eq_refl) as (s & ll & rest & -> & ->).
    exists s, ll, (elems l ++ d :: rest). split; [reflexivity|].
    now rewrite <- app_assoc.
Qed.

(** [min] on a non-empty ordered subtree returns a node without left child
    whose value comes first in the in-order sequence and is less than every
    other stored value. *)
Theorem min_is_least node :
  is_bst node = true -> is_null node = false ->
  exists s rr rest,
    min node = Node nullptr s rr /\
    in_order_rec node [] = s :: rest /\
    (forall x, In x rest -> less s x = true).
Proof.
  intros Hb Hn. destruct (min_first node Hn) as (s & rr & rest & Hmin & Hel).
  exists s, rr, rest. repeat split; try assumption.
  pose proof (is_bst_ascending node Hb) as Hs. unfold ascending in Hs.
  rewrite Hel in Hs. apply StronglySorted_inv in Hs. destruct Hs as [_ Hs].
  rewrite Forall_forall in Hs. exact Hs.
Qed.

(** [max] on a non-empty ordered subtree returns a node without right child
    whose value comes last in the in-order sequence and is greater than
    every other stored value. *)
Theorem max_is_greatest node :
  is_bst node = true -> is_null node = false ->
  exists s ll rest,
    max node = Node ll s nullptr /\
    in_order_rec node [] = rest ++ [s] /\
    (forall x, In x rest -> less x s = true).
Proof.
  intros Hb Hn. destruct (max_last node Hn) as (s & ll & rest & Hmax & Hel).
  exists s, ll, rest. repeat split; try assumption.
  pose proof (is_bst_ascending node Hb) as Hs. unfold ascending in Hs.
  rewrite Hel in Hs. apply StronglySorted_app_inv in Hs.
  destruct Hs as (_ & _ & Hs). intros x Hx. apply Hs; simpl; auto.
Qed.

(** On an ordered tree [contain] answers whether some stored value is
    equivalent to the one asked for: the descent misses nothing. *)
Theorem contain_iff_stored t v :
  is_bst (root t) = true ->
  contain t v = existsb (fun x => equiv x v) (in_order t).
Proof.
  intros Hb. unfold contain, in_order. apply eq_true_iff_eq.
  rewrite existsb_exists. split.
  - apply contain_node_In.
  - intros (x & Hx & Hxv). now apply In_contain_node with x.
Qed.

(** A successful insertion into an ordered tree puts the value at its place
    in the in-order sequence: everything before it is less, everything after
    it is greater, and the other values keep their order. *)
Theorem insert_in_order t v :
  is_bst (root t) = true -> fst (insert t v) = true ->
  exists s1 s2,
    in_order t = s1 ++ s2 /\
    in_order (snd (insert t v)) = s1 ++ v :: s2 /\
    (forall x, In x s1 -> less x v = true) /\
    (forall x, In x s2 -> less v x = true).
Proof.
  rewrite insert_eq. unfold in_order. simpl. intros Hb Hok.
  destruct (insert_node_elems (root t) v Hok) as (s1 & s2 & Hel & Hel').
  exists s1, s2. split; [assumption|]. split; [assumption|].
  pose proof (is_bst_ascending _ (insert_node_is_bst (root t) v Hb)) as Hs.
  unfold ascending in Hs. rewrite Hel' in Hs.
  apply StronglySorted_app_inv in Hs. destruct Hs as (_ & Hs2 & H12).
  apply StronglySorted_inv in Hs2. destruct Hs2 as [_ Hs2].
  rewrite Forall_forall in Hs2. split; [|exact Hs2].
  intros x Hx. apply H12; simpl; auto.
Qed.

(** A successful removal from an ordered tree deletes from the in-order
    sequence the one stored value equivalent to the argument and nothing
    else; no remaining value is equivalent to it. *)
Theorem remove_in_order t v :
  is_bst (root t) = true -> fst (remove t v) = true ->
  exists s1 x s2,
    in_order t = s1 ++ x :: s2 /\ equiv x v = true /\
    in_order (snd (remove t v)) = s1 ++ s2 /\
    (forall y, In y (s1 ++ s2) -> equiv y v = false).
Proof.
  rewrite remove_eq. unfold in_order. simpl. intros Hb Hok.
  destruct (remove_node_elems (root t) v Hb Hok)
    as (s1 & x & s2 & Hel & Hxv & Hel').
  exists s1, x, s2. repeat split; try assumption.
  intros y Hy. destruct (equiv y v) eqn:Hyv; [|reflexivity].
  pose proof (contain_remove_node (root t) v v Hb) as Hc.
  rewrite equiv_refl, andb_false_r in Hc. rewrite <- Hc. symmetry.
  apply In_contain_node with y; auto using remove_node_is_bst.
  now rewrite Hel'.
Qed.

(** Membership after one call on an ordered tree: [insert(w)] makes the
    values equivalent to [w] contained and [remove(w)] makes them not
    contained; the answer for every other value is unchanged. *)
Theorem membership_after_call t w v :
  is_bst (root t) = true ->
  contain (snd (insert t w)) v = contain t v || equiv w v /\
  contain (snd (remove t w)) v = contain t v && negb (equiv w v).
Proof.
  intros Hb. split.
  - exact (contain_apply_op t (Insert w) v Hb).
  - exact (contain_apply_op t (Remove w) v Hb).
Qed.

Lemma contain_after_insert_node node v :
  contain_node (snd (insert_node node v)) v = true.
Proof.
  induction node as [|l IHl d r IHr]; simpl.
  - now rewrite less_irrefl.
  - destruct (less v d) eqn:E1; [|destruct (less d v) eqn:E2].
    + destruct (insert_node l v) as [b l']; simpl in *. now rewrite E1.
    + destruct (insert_node r v) as [b r']; simpl in *. now rewrite E1, E2.
    + simpl. now rewrite E1, E2.
Qed.

(** Repeating a call changes nothing.  On every tree a second [insert] of
    the same value returns [false] and leaves the tree as the first one made
    it; on an ordered tree the same holds for a second [remove]. *)
Theorem repeated_call_is_rejected t v :
  insert (snd (insert t v)) v = (false, snd (insert t v)) /\
  (is_bst (root t) = true ->
   remove (snd (remove t v)) v = (false, snd (remove t v))).
Proof.
  split.
  - rewrite (insert_eq (snd _)).
    assert (Hf : fst (insert_node (root (snd (insert t v))) v) = false).
    { rewrite insert_node_fst, insert_eq. simpl.
      now rewrite contain_after_insert_node. }
    rewrite Hf, (insert_node_false _ _ Hf). now destruct (snd (insert t v)).
  - intros Hb. rewrite (remove_eq (snd _)).
    assert (Hf : fst (remove_node (root (snd (remove t v))) v) = false).
    { rewrite remove_node_fst, remove_eq. simpl.
      rewrite contain_remove_node by assumption.
      now rewrite equiv_refl, andb_false_r. }
    rewrite Hf, (remove_node_false _ _ Hf). now destruct (snd (remove t v)).
Qed.

End OrderedQueries.

(** ** Building a tree from a sequence *)

Section Building.

Context {T : Type} `{Less T} `{!StrictWeakOrder T}.

Implicit Types (node l r : TreeNode T) (v w d : T) (t : BST T)
  (xs ys : list T).

Local Notation elems node := (in_order_rec node []).
Local Notation inserts xs := (map (@Insert T) xs).

Lemma run_app ops ops' t :
  run (ops ++ ops') t
  = (fst (run ops t) ++ fst (run ops' (snd (run ops t))),
     snd (run ops' (snd (run ops t)))).
Proof.
  revert t. induction ops as [|o ops IH]; intros t.
  - simpl. now destruct (run ops' t).
  - rewrite <- app_comm_cons, !run_cons, IH. reflexivity.
Qed.

(** Values below the root are inserted into the left subtree. *)
Lemma run_inserts_left xs l d r :
  (forall x, In x xs -> less x d = true) ->
  run (inserts xs) (mkBST (Node l d r))
  = (fst (run (inserts xs) (mkBST l)),
     mkBST (Node (root (snd (run (inserts xs) (mkBST l)))) d r)).
Proof.
  revert l. induction xs as [|x xs IH]; intros l Hxs; [reflexivity|].
  cbn [map]. rewrite !run_cons. cbn [apply_op]. rewrite !insert_eq.
  cbn [fst snd root insert_node]. rewrite (Hxs x) by now left.
  destruct (insert_node l x) as [b l'] eqn:E. cbn [fst snd].
  rewrite IH by (intros y Hy; apply Hxs; now right). reflexivity.
Qed.

(** Values above the root are inserted into the right subtree. *)
Lemma run_inserts_right xs l d r :
  (forall x, In x xs -> less d x = true) ->
  run (inserts xs) (mkBST (Node l d r))
  = (fst (run (inserts xs) (mkBST r)),
     mkBST (Node l d (root (snd (run (inserts xs) (mkBST r)))))).
Proof.
  revert r. induction xs as [|x xs IH]; intros r Hxs; [reflexivity|].
  cbn [map]. rewrite !run_cons. cbn [apply_op]. rewrite !insert_eq.
  cbn [fst snd root insert_node].
  rewrite (less_asym _ _ (Hxs x (or_introl eq_refl))).
  rewrite (Hxs x) by now left.
  destruct (insert_node r x) as [b r'] eqn:E. cbn [fst snd].
  rewrite IH by (intros y Hy; apply Hxs; now right). reflexivity.
Qed.

Lemma pre_order_rebuilds_node node :
  is_bst node = true ->
  run (inserts (pre_order_rec node [])) BST_new
  = (repeat true (size node), mkBST node).
Proof.
  induction node as [|l IHl d r IHr]; [reflexivity|].
  simpl is_bst. rewrite !andb_true_iff. intros [[[Hl Hr] Hbl] Hbr].
  rewrite all_values_In in Hl, Hr.
  rewrite pre_order_rec_Node. cbn [map]. rewrite run_cons.
  cbn [apply_op]. rewrite insert_eq. cbn [BST_new root insert_node fst snd].
  unfold TreeNode_new. rewrite map_app, run_app.
  rewrite run_inserts_left.
  2:{ intros x Hx. apply Hl.
      eapply Permutation_in; [symmetry; apply pre_order_perm | exact Hx]. }
  fold (@BST_new T). rewrite (IHl Hbl). cbn [fst snd root].
  rewrite run_inserts_right.
  2:{ intros x Hx. apply Hr.
      eapply Permutation_in; [symmetry; apply pre_order_perm | exact Hx]. }
  fold (@BST_new T). rewrite (IHr Hbr). cbn [fst snd root size].
  now rewrite <- repeat_app.
Qed.

(** Inserting the pre-order sequence of an ordered tree into an empty tree
    rebuilds the very same tree, every insertion returning [true]. *)
Theorem pre_order_rebuilds t :
  is_bst (root t) = true ->
  run (inserts (pre_order t)) BST_new
  = (repeat true (length (pre_order t)), t).
Proof.
  intros Hb. destruct t as [node]. unfold pre_order. simpl root in *.
  rewrite (pre_order_rebuilds_node node Hb). f_equal. f_equal.
  rewrite <- (Permutation_length (pre_order_perm node)).
  symmetry. apply in_order_length.
Qed.

Lemma run_inserts_members xs t x :
  In x (in_order (snd (run (inserts xs) t))) -> In x (in_order t) \/ In x xs.
Proof.
  revert t. induction xs as [|y xs IH]; intros t; [now left|].
  cbn [map]. rewrite run_cons. cbn [snd apply_op]. intros Hx.
  destruct (IH _ Hx) as [Hin|Hin]; [|right; now right].
  revert Hin. rewrite insert_eq. unfold in_order. simpl.
  destruct (fst (insert_node (root t) y)) eqn:Hok.
  - destruct (insert_node_elems (root t) y Hok) as (s1 & s2 & -> & ->).
    rewrite !in_app_iff. simpl. intuition.
  - rewrite (insert_node_false _ _ Hok). now left.
Qed.

(** Inserting a sequence into an empty tree sorts it: [in_order] is then
    strictly ascending, lists only values of the sequence, and every value
    of the sequence is contained. *)
Theorem inserts_sort xs :
  ascending (in_order (snd (run (inserts xs) BST_new))) /\
  (forall x, In x (in_order (snd (run (inserts xs) BST_new))) -> In x xs) /\
  (forall x, In x xs -> contain (snd (run (inserts xs) BST_new)) x = true).
Proof.
  split; [|split].
  - apply is_bst_ascending. now apply run_is_bst.
  - intros x Hx. destruct (run_inserts_members xs _ x Hx) as [[]|Hin].
    exact Hin.
  - intros x Hx. apply in_split in Hx. destruct Hx as (ys & zs & ->).
    rewrite map_app. cbn [map]. rewrite run_app_snd, run_cons. cbn [snd].
    pose proof (run_is_bst (inserts ys) (@BST_new T) eq_refl) as Hb.
    apply contain_stays_true.
    + now apply (apply_op_is_bst _ (Insert x)).
    + rewrite (contain_apply_op _ (Insert x)) by assumption.
      now rewrite equiv_refl, orb_true_r.
    + intros w Hw. apply in_map_iff in Hw. destruct Hw as (z & Hz & _).
      discriminate.
Qed.

End Building.

(** * The free store *)

Section Footprints.

Variable A : Type.

Implicit Types (a x : A) (fl fr : list A).

Lemma NoDup_app_disjoint fl fr :
  NoDup (fl ++ fr) -> forall x, In x fl -> ~ In x fr.
Proof.
  induction fl as [|a fl IH]; simpl; intros Hnd x Hx; [destruct Hx|].
  apply NoDup_cons_iff in Hnd. destruct Hnd as [Ha Hnd].
  destruct Hx as [<-|Hx]; [|now apply IH].
  intros Hin. apply Ha. apply in_or_app. now right.
Qed.

Lemma NoDup_node a fl fr :
  NoDup (a :: fl ++ fr) <->
  ~ In a fl /\ ~ In a fr /\ NoDup fl /\ NoDup fr /\
  (forall x, In x fl -> ~ In x fr).
Proof.
  rewrite NoDup_cons_iff, in_app_iff. split.
  - intros [Ha Hnd]. repeat split; try tauto.
    + eapply NoDup_app_remove_r; eassumption.
    + eapply NoDup_app_remove_l; eassumption.
    + now apply NoDup_app_disjoint.
  - intros (Hl & Hr & Hfl & Hfr & Hd). split; [tauto|].
    now apply NoDup_app.
Qed.

End Footprints.

Section MemoryBasics.

Context {T : Type} `{Less T}.

Implicit Types (m : store T) (h : addr -> option (cell T)) (p : pointer)
  (t l r : TreeNode T) (fp fl fr : list addr) (a x : addr) (v d : T).

Lemma cells_set_cell a (c : option (cell T)) m x :
  cells (set_cell a c m) x = if Nat.eqb x a then c else cells m x.
Proof. reflexivity. Qed.

Lemma cells_set_cell_same a (c : option (cell T)) m :
  cells (set_cell a c m) a = c.
Proof. rewrite cells_set_cell. now rewrite Nat.eqb_refl. Qed.

Lemma cells_set_cell_other a (c : option (cell T)) m x :
  x <> a -> cells (set_cell a c m) x = cells m x.
Proof.
  intros Hx. rewrite cells_set_cell.
  destruct (Nat.eqb_spec x a); [contradiction | reflexivity].
Qed.

(** The representation only looks at the cells of the footprint. *)
Lemma owns_frame h h' p t fp :
  (forall x, In x fp -> h' x = h x) -> owns h p t fp -> owns h' p t fp.
Proof.
  revert p fp. induction t as [|l IHl d r IHr]; intros p fp Hsame; simpl.
  - auto.
  - intros (a & pl & pr & fl & fr & -> & Ha & -> & Hl & Hr).
    exists a, pl, pr, fl, fr. repeat split.
    + rewrite Hsame; [assumption | now left].
    + apply IHl; [|assumption]. intros x Hx. apply Hsame.
      right. apply in_or_app. now left.
    + apply IHr; [|assumption]. intros x Hx. apply Hsame.
      right. apply in_or_app. now right.
Qed.

Lemma owns_length h p t fp : owns h p t fp -> length fp = size t.
Proof.
  revert p fp. induction t as [|l IHl d r IHr]; intros p fp; simpl.
  - now intros [_ ->].
  - intros (a & pl & pr & fl & fr & _ & _ & -> & Hl & Hr).
    simpl. rewrite length_app. now rewrite (IHl _ _ Hl), (IHr _ _ Hr).
Qed.

Lemma owns_live h p t fp x :
  owns h p t fp -> In x fp -> h x <> None.
Proof.
  revert p fp. induction t as [|l IHl d r IHr]; intros p fp; simpl.
  - now intros [_ ->].
  - intros (a & pl & pr & fl & fr & _ & Ha & -> & Hl & Hr) [<-|Hx].
    + congruence.
    + apply in_app_or in Hx. destruct Hx; eauto.
Qed.

Lemma owns_is_null h p t fp : owns h p t fp -> is_nullp p = is_null t.
Proof.
  destruct t; simpl.
  - now intros [-> _].
  - now intros (a & pl & pr & fl & fr & -> & _).
Qed.

(** *** The destructor *)

Lemma delete_mem_null fuel m : delete_mem fuel None m = Some m.
Proof. now destruct fuel. Qed.

Lemma delete_mem_owns t :
  forall fuel p fp m,
    owns (cells m) p t fp -> NoDup fp -> height t <= fuel ->
    exists m',
      delete_mem fuel p m = Some m' /\ root_ptr m' = root_ptr m /\
      (forall x, In x fp -> cells m' x = None) /\
      (forall x, ~ In x fp -> cells m' x = cells m x).
Proof.
  induction t as [|l IHl d r IHr]; intros fuel p fp m Ho Hnd Hh.
  - destruct Ho as [-> ->]. exists m. rewrite delete_mem_null.
    repeat split. intros x [].
  - destruct Ho as (a & pl & pr & fl & fr & -> & Ha & -> & Hl & Hr).
    apply NoDup_node in Hnd. destruct Hnd as (Hal & Har & Hfl & Hfr & Hd).
    simpl in Hh. destruct fuel as [|fuel]; [lia|].
    destruct (IHl fuel pl fl m Hl Hfl ltac:(lia))
      as (m1 & E1 & Hroot1 & Hnone1 & Hsame1).
    assert (Hr1 : owns (cells m1) pr r fr).
    { apply owns_frame with (cells m); [|assumption].
      intros x Hx. apply Hsame1. intros Hxl. exact (Hd x Hxl Hx). }
    destruct (IHr fuel pr fr m1 Hr1 Hfr ltac:(lia))
      as (m2 & E2 & Hroot2 & Hnone2 & Hsame2).
    exists (set_cell a None m2).
    assert (Ha1 : cells m1 a = Some (mkCell d pl pr))
      by (rewrite Hsame1; assumption).
    assert (Ha2 : cells m2 a = Some (mkCell d pl pr))
      by (rewrite Hsame2; assumption).
    split; [|split; [|split]].
    + cbn [delete_mem]. rewrite Ha. cbn [bind cell_left]. rewrite E1.
      cbn [bind]. rewrite Ha1. cbn [bind cell_right]. rewrite E2.
      cbn [bind]. unfold free. now rewrite Ha2.
    + simpl. congruence.
    + intros x [<-|Hx]; [apply cells_set_cell_same|].
      destruct (Nat.eq_dec x a) as [->|Hxa]; [apply cells_set_cell_same|].
      rewrite cells_set_cell_other by assumption.
      apply in_app_or in Hx. destruct Hx as [Hx|Hx]; [|now apply Hnone2].
      rewrite Hsame2 by (intros Hxr; exact (Hd x Hx Hxr)). now apply Hnone1.
    + intros x Hx. simpl in Hx. rewrite in_app_iff in Hx.
      rewrite cells_set_cell_other by (intros ->; tauto).
      rewrite Hsame2, Hsame1 by tauto. reflexivity.
Qed.

(** Destroying a tree ([~BST], that is [delete root], which runs
    [~TreeNode] on every node): when the store holds a tree, the call
    returns, releases every cell of the tree, none of them twice, and leaves
    every other cell as it was. *)
Theorem destructor_releases_the_tree m t fp fuel :
  holds m t fp -> height t <= fuel ->
  exists m',
    BST_delete fuel m = Some m' /\
    (forall x, In x fp -> cells m x <> None /\ cells m' x = None) /\
    (forall x, ~ In x fp -> cells m' x = cells m x).
Proof.
  intros [Ho Hnd] Hh.
  edestruct delete_mem_owns as (m' & E & _ & Hnone & Hsame);
    [exact Ho | exact Hnd | exact Hh |].
  exists m'. repeat split; auto.
  eapply owns_live; eassumption.
Qed.

End MemoryBasics.

(** ** Members that only read *)

Section MemoryQueries.

Context {T : Type} `{Less T}.

Implicit Types (m : store T) (p q : pointer) (t l r : TreeNode T)
  (fp fl fr : list addr) (a x : addr) (v d : T) (value : value_ref T)
  (result : list T).






Lemma min_mem_owns t :
  forall fuel a fp m,
    owns (cells m) (Some a) t fp -> height t <= fuel ->
    exists s fs,
      min_mem fuel a m = Some s /\ owns (cells m) (Some s) (min t) fs /\
      incl fs fp.
Proof.
  induction t as [|l IHl d r _]; intros fuel a fp m Ho Hh.
  - destruct Ho as [[=] _].
  - pose proof Ho as Ho'.
    destruct Ho as (a' & pl & pr & fl & fr & [= <-] & Ha & -> & Hl & Hr).
    simpl in Hh. destruct fuel as [|fuel]; [lia|].
    cbn [min_mem min]. rewrite Ha. cbn [bind cell_left].
    pose proof (owns_is_null _ _ _ _ Hl) as Hnull. rewrite <- Hnull.
    destruct pl as [al|]; cbn [is_nullp].
    + destruct (IHl fuel al fl m Hl ltac:(lia)) as (s & fs & E & Hs & Hincl).
      exists s, fs. repeat split; try assumption.
      intros x Hx. right. apply in_or_app. left. now apply Hincl.
    + exists a, (a :: fl ++ fr). repeat split; try assumption.
      apply incl_refl.
Qed.




End MemoryQueries.

(** ** Members that write *)

Section MemoryUpdates.

Context {T : Type} `{Less T}.

Implicit Types (m : store T) (p q : pointer) (t l r : TreeNode T)
  (fp fl fr : list addr) (a b x : addr) (v d : T) (value : value_ref T)
  (node : slot).

(** Case analysis on every comparison of addresses in the goal. *)
Ltac eqb_cases :=
  repeat match goal with
         | |- context [Nat.eqb ?a ?b] => destruct (Nat.eqb_spec a b)
         end.

Lemma write_slot_ok node p p' m :
  read_slot node m = Some p -> write_slot node p' m = Some (poke node p' m).
Proof. unfold write_slot. now intros ->. Qed.

Lemma read_slot_poke node p p' m :
  read_slot node m = Some p -> read_slot node (poke node p' m) = Some p'.
Proof.
  destruct node as [|b|b]; simpl; [reflexivity| |];
    rewrite Nat.eqb_refl; now destruct (cells m b).
Qed.

Lemma poke_same node p m :
  read_slot node m = Some p ->
  root_ptr (poke node p m) = root_ptr m /\
  forall x, cells (poke node p m) x = cells m x.
Proof.
  destruct node as [|b|b]; simpl.
  - intros [= <-]. auto.
  - destruct (cells m b) as [[d pl pr]|] eqn:Eb; [|discriminate].
    intros [= <-]. split; [reflexivity|]. intros x.
    destruct (Nat.eqb_spec x b) as [->|]; [now rewrite Eb | reflexivity].
  - destruct (cells m b) as [[d pl pr]|] eqn:Eb; [|discriminate].
    intros [= <-]. split; [reflexivity|]. intros x.
    destruct (Nat.eqb_spec x b) as [->|]; [now rewrite Eb | reflexivity].
Qed.

Lemma cells_poke_inside node p m fp x :
  slot_outside node fp -> In x fp -> cells (poke node p m) x = cells m x.
Proof.
  destruct node as [|b|b]; simpl; [reflexivity| |]; intros Hb Hx;
    (destruct (Nat.eqb_spec x b) as [->|]; [contradiction | reflexivity]).
Qed.

(** Reading a slot gives the same pointer in two stores that agree on the
    [root] member and on the cell the slot lies in. *)
Lemma read_slot_agree node m m' :
  root_ptr m' = root_ptr m ->
  (forall b, node = left_slot b \/ node = right_slot b ->
             cells m' b = cells m b) ->
  read_slot node m' = read_slot node m.
Proof.
  intros Hroot Hcell. destruct node as [|b|b]; simpl.
  - now rewrite Hroot.
  - rewrite (Hcell b); auto.
  - rewrite (Hcell b); auto.
Qed.

Lemma slot_cell_live node m p b :
  read_slot node m = Some p -> node = left_slot b \/ node = right_slot b ->
  cells m b <> None.
Proof.
  intros Hread [->| ->]; simpl in Hread; destruct (cells m b);
    try discriminate; congruence.
Qed.

Lemma slot_cell_outside node fp b :
  slot_outside node fp -> node = left_slot b \/ node = right_slot b ->
  ~ In b fp.
Proof. now intros Hout [->| ->]. Qed.

(** *** Insertion *)

Section Insertion.

Variable fresh : store T -> addr.

Lemma insert_mem_owns t :
  forall fuel node value m p fp v,
    height t < fuel -> read_slot node m = Some p ->
    owns (cells m) p t fp -> NoDup fp -> slot_outside node fp ->
    read_value value m = Some v -> cells m (fresh m) = None ->
    exists m' p' fp',
      insert_mem fresh fuel node value m = Some (fst (insert_node t v), m') /\
      read_slot node m' = Some p' /\
      owns (cells m') p' (snd (insert_node t v)) fp' /\
      same_outside (fresh m :: fp) m' (poke node p' m) /\
      if fst (insert_node t v) then Permutation fp' (fresh m :: fp)
      else fp' = fp /\ m' = m.
Proof.
  induction t as [|l IHl d r IHr];
    intros fuel node value m p fp v Hh Hread Ho Hnd Hout Hv Hfresh;
    (destruct fuel as [|fuel]; [lia|]).
  - destruct Ho as [-> ->].
    cbn [insert_mem insert_node fst snd]. rewrite Hread. cbn [bind].
    rewrite Hv. cbn [bind]. unfold new_node. rewrite Hfresh. cbn [bind fst snd].
    set (an := fresh m) in *.
    set (m1 := set_cell an (Some (mkCell v None None)) m).
    assert (Hlive : forall b, node = left_slot b \/ node = right_slot b ->
                              b <> an).
    { intros b Hb ->. revert Hfresh. eapply slot_cell_live; eassumption. }
    assert (Hread1 : read_slot node m1 = Some None).
    { transitivity (read_slot node m); [|exact Hread].
      apply read_slot_agree; [reflexivity|].
      intros b Hb. apply cells_set_cell_other. auto. }
    erewrite write_slot_ok by exact Hread1. cbn [bind].
    exists (poke node (Some an) m1), (Some an), [an].
    split; [reflexivity|].
    split; [eapply read_slot_poke; eassumption|].
    split; [|split].
    + exists an, None, None, [], []. repeat split.
      destruct node as [|b|b]; simpl;
        rewrite ?Nat.eqb_refl; try reflexivity;
        (destruct (Nat.eqb_spec an b) as [->|];
         [exfalso; eapply Hlive; eauto | reflexivity]).
    + split.
      * destruct node; reflexivity.
      * intros x Hx. simpl in Hx.
        assert (Hxa : x <> an) by (intros ->; tauto).
        destruct node as [|b|b]; simpl; eqb_cases;
          try reflexivity; try contradiction;
          exfalso; eapply Hlive; eauto.
    + apply Permutation_refl.
  - pose proof Ho as Ho0.
    destruct Ho as (a & pl & pr & fl & fr & -> & Ha & -> & Hl & Hr).
    assert (Hfp : ~ In (fresh m) (a :: fl ++ fr)).
    { intros Hin. revert Hfresh. eapply owns_live; eassumption. }
    assert (Hb : forall b, node = left_slot b \/ node = right_slot b ->
                           b <> a /\ b <> fresh m /\ ~ In b (fl ++ fr)).
    { intros b Hb.
      assert (Hnb : ~ In b (a :: fl ++ fr))
        by (eapply slot_cell_outside; eassumption).
      assert (Hlb : cells m b <> None)
        by (eapply slot_cell_live; eassumption).
      simpl in Hnb. split; [intros ->; tauto|].
      split; [intros ->; contradiction | tauto]. }
    apply NoDup_node in Hnd. destruct Hnd as (Hal & Har & Hfl & Hfr & Hd).
    simpl in Hh, Hfp. rewrite in_app_iff in Hfp.
    edestruct poke_same as [Hroot0 Hcells0]; [exact Hread|].
    cbn [insert_mem insert_node]. rewrite Hread. cbn [bind].
    rewrite Hv, Ha. cbn [bind cell_data].
    destruct (less v d); [|destruct (less d v)].
    + assert (Hrl : read_slot (left_slot a) m = Some pl)
        by (simpl; now rewrite Ha).
      destruct (IHl fuel (left_slot a) value m pl fl v ltac:(lia) Hrl Hl Hfl
                  Hal Hv Hfresh)
        as (m' & pl' & fl' & E & Hread' & Ho' & [Hroot Hsame] & Hres).
      destruct (insert_node l v) as [res l']. cbn [fst snd] in *.
      assert (Ha' : cells m' a = Some (mkCell d pl' pr)).
      { rewrite Hsame by (simpl; intuition congruence). simpl.
        now rewrite Nat.eqb_refl, Ha. }
      assert (Hother : forall x, x <> a -> x <> fresh m -> ~ In x fl ->
                                 cells m' x = cells m x).
      { intros x Hxa Hxf Hxl. rewrite Hsame by (simpl; intuition congruence).
        simpl. destruct (Nat.eqb_spec x a); [contradiction | reflexivity]. }
      exists m', (Some a), (a :: fl' ++ fr).
      split; [exact E|]. split; [|split; [|split]].
      * transitivity (read_slot node m); [|exact Hread].
        apply read_slot_agree; [exact Hroot|].
        intros b Hbn. destruct (Hb b Hbn) as (? & ? & Hn).
        rewrite in_app_iff in Hn. apply Hother; tauto.
      * exists a, pl', pr, fl', fr. repeat split; try assumption.
        apply owns_frame with (cells m); [|assumption].
        intros x Hx. apply Hother.
        -- now intros ->.
        -- intros ->. tauto.
        -- intros Hxl. exact (Hd x Hxl Hx).
      * split; [now rewrite Hroot0|].
        intros x Hx. simpl in Hx. rewrite in_app_iff in Hx.
        rewrite Hcells0. apply Hother; intuition congruence.
      * destruct res.
        -- rewrite Hres. simpl. apply perm_swap.
        -- destruct Hres as [-> ->]. auto.
    + assert (Hrr : read_slot (right_slot a) m = Some pr)
        by (simpl; now rewrite Ha).
      destruct (IHr fuel (right_slot a) value m pr fr v ltac:(lia) Hrr Hr Hfr
                  Har Hv Hfresh)
        as (m' & pr' & fr' & E & Hread' & Ho' & [Hroot Hsame] & Hres).
      destruct (insert_node r v) as [res r']. cbn [fst snd] in *.
      assert (Ha' : cells m' a = Some (mkCell d pl pr')).
      { rewrite Hsame by (simpl; intuition congruence). simpl.
        now rewrite Nat.eqb_refl, Ha. }
      assert (Hother : forall x, x <> a -> x <> fresh m -> ~ In x fr ->
                                 cells m' x = cells m x).
      { intros x Hxa Hxf Hxl. rewrite Hsame by (simpl; intuition congruence).
        simpl. destruct (Nat.eqb_spec x a); [contradiction | reflexivity]. }
      exists m', (Some a), (a :: fl ++ fr').
      split; [exact E|]. split; [|split; [|split]].
      * transitivity (read_slot node m); [|exact Hread].
        apply read_slot_agree; [exact Hroot|].
        intros b Hbn. destruct (Hb b Hbn) as (? & ? & Hn).
        rewrite in_app_iff in Hn. apply Hother; tauto.
      * exists a, pl, pr', fl, fr'. repeat split; try assumption.
        apply owns_frame with (cells m); [|assumption].
        intros x Hx. apply Hother.
        -- now intros ->.
        -- intros ->. tauto.
        -- intros Hxr. exact (Hd x Hx Hxr).
      * split; [now rewrite Hroot0|].
        intros x Hx. simpl in Hx. rewrite in_app_iff in Hx.
        rewrite Hcells0. apply Hother; intuition congruence.
      * destruct res.
        -- rewrite Hres. rewrite perm_swap. apply perm_skip.
           symmetry. apply Permutation_middle.
        -- destruct Hres as [-> ->]. auto.
    + exists m, (Some a), (a :: fl ++ fr). cbn [fst snd].
      repeat split; auto.
Qed.

End Insertion.

(** *** Removal *)

Lemma owns_null_tree h t fp : owns h None t fp -> t = nullptr /\ fp = [].
Proof.
  destruct t; simpl.
  - now intros [_ ->].
  - intros (a & pl & pr & fl & fr & [=] & _).
Qed.

Lemma delete_mem_leaf fuel a d m :
  cells m a = Some (mkCell d None None) ->
  delete_mem (S fuel) (Some a) m = Some (set_cell a None m).
Proof.
  intros Ha. cbn [delete_mem]. rewrite Ha. cbn [bind cell_left cell_right].
  rewrite delete_mem_null. cbn [bind]. rewrite Ha. cbn [bind cell_right].
  rewrite delete_mem_null. cbn [bind]. unfold free. now rewrite Ha.
Qed.

Lemma remove_mem_owns t :
  forall fuel node value m p fp v,
    height t < fuel -> read_slot node m = Some p ->
    owns (cells m) p t fp -> NoDup fp -> slot_outside node fp ->
    read_value value m = Some v ->
    exists m' p' fp',
      remove_mem fuel node value m = Some (fst (remove_node t v), m') /\
      read_slot node m' = Some p' /\
      owns (cells m') p' (snd (remove_node t v)) fp' /\
      incl fp' fp /\ NoDup fp' /\
      (forall x, In x fp -> ~ In x fp' -> cells m' x = None) /\
      same_outside fp m' (poke node p' m) /\
      (fst (remove_node t v) = false -> m' = m).
Proof.
  induction t as [|l IHl d r IHr];
    intros fuel node value m p fp v Hh Hread Ho Hnd Hout Hv;
    (destruct fuel as [|fuel]; [lia|]).
  - destruct Ho as [-> ->].
    edestruct poke_same as [Hroot0 Hcells0]; [exact Hread|].
    exists m, None, []. cbn [remove_mem remove_node fst snd].
    rewrite Hread. cbn [bind].
    split; [reflexivity|]. split; [reflexivity|].
    split; [split; reflexivity|]. split; [apply incl_refl|].
    split; [constructor|]. split; [intros x []|].
    split; [split; auto | reflexivity].
  - pose proof Ho as Ho0.
    destruct Ho as (a & pl & pr & fl & fr & -> & Ha & -> & Hl & Hr).
    assert (Hb : forall b, node = left_slot b \/ node = right_slot b ->
                           b <> a /\ ~ In b (fl ++ fr)).
    { intros b Hb.
      assert (Hnb : ~ In b (a :: fl ++ fr))
        by (eapply slot_cell_outside; eassumption).
      simpl in Hnb. split; [intros ->; tauto | tauto]. }
    pose proof Hnd as Hnd0.
    apply NoDup_node in Hnd. destruct Hnd as (Hal & Har & Hfl & Hfr & Hd).
    simpl in Hh.
    edestruct poke_same as [Hroot0 Hcells0]; [exact Hread|].
    assert (Hnl : is_nullp pl = is_null l)
      by (eapply owns_is_null; eassumption).
    assert (Hnr : is_nullp pr = is_null r)
      by (eapply owns_is_null; eassumption).
    cbn [remove_mem remove_node]. rewrite Hread. cbn [bind].
    rewrite Hv, Ha. cbn [bind cell_data cell_left cell_right].
    rewrite Hnl, Hnr.
    destruct (less v d); [|destruct (less d v)].
    + (* into the left subtree *)
      assert (Hrl : read_slot (left_slot a) m = Some pl)
        by (simpl; now rewrite Ha).
      destruct (IHl fuel (left_slot a) value m pl fl v ltac:(lia) Hrl Hl Hfl
                  Hal Hv)
        as (m' & pl' & fl' & E & Hread' & Ho' & Hincl & Hnd' & Hfreed
            & [Hroot Hsame] & Hfalse).
      destruct (remove_node l v) as [res l']. cbn [fst snd] in *.
      assert (Ha' : cells m' a = Some (mkCell d pl' pr)).
      { rewrite Hsame by assumption. simpl. now rewrite Nat.eqb_refl, Ha. }
      assert (Hother : forall x, x <> a -> ~ In x fl ->
                                 cells m' x = cells m x).
      { intros x Hxa Hxl. rewrite Hsame by assumption.
        simpl. destruct (Nat.eqb_spec x a); [contradiction | reflexivity]. }
      exists m', (Some a), (a :: fl' ++ fr).
      split; [exact E|]. repeat split.
      * transitivity (read_slot node m); [|exact Hread].
        apply read_slot_agree; [exact Hroot|].
        intros b Hbn. destruct (Hb b Hbn) as (? & Hn).
        rewrite in_app_iff in Hn. apply Hother; tauto.
      * exists a, pl', pr, fl', fr. repeat split; try assumption.
        apply owns_frame with (cells m); [|assumption].
        intros x Hx. apply Hother; [now intros -> |].
        intros Hxl. exact (Hd x Hxl Hx).
      * intros x [<-|Hx]; [now left|]. right.
        rewrite in_app_iff in *. destruct Hx; auto.
      * apply NoDup_node. repeat split; auto.
      * intros x Hx Hx'. simpl in Hx, Hx'. rewrite in_app_iff in Hx, Hx'.
        apply Hfreed; tauto.
      * now rewrite Hroot0.
      * intros x Hx. simpl in Hx. rewrite in_app_iff in Hx.
        rewrite Hcells0. apply Hother; intuition congruence.
      * assumption.
    + (* into the right subtree *)
      assert (Hrr : read_slot (right_slot a) m = Some pr)
        by (simpl; now rewrite Ha).
      destruct (IHr fuel (right_slot a) value m pr fr v ltac:(lia) Hrr Hr Hfr
                  Har Hv)
        as (m' & pr' & fr' & E & Hread' & Ho' & Hincl & Hnd' & Hfreed
            & [Hroot Hsame] & Hfalse).
      destruct (remove_node r v) as [res r']. cbn [fst snd] in *.
      assert (Ha' : cells m' a = Some (mkCell d pl pr')).
      { rewrite Hsame by assumption. simpl. now rewrite Nat.eqb_refl, Ha. }
      assert (Hother : forall x, x <> a -> ~ In x fr ->
                                 cells m' x = cells m x).
      { intros x Hxa Hxl. rewrite Hsame by assumption.
        simpl. destruct (Nat.eqb_spec x a); [contradiction | reflexivity]. }
      exists m', (Some a), (a :: fl ++ fr').
      split; [exact E|]. repeat split.
      * transitivity (read_slot node m); [|exact Hread].
        apply read_slot_agree; [exact Hroot|].
        intros b Hbn. destruct (Hb b Hbn) as (? & Hn).
        rewrite in_app_iff in Hn. apply Hother; tauto.
      * exists a, pl, pr', fl, fr'. repeat split; try assumption.
        apply owns_frame with (cells m); [|assumption].
        intros x Hx. apply Hother; [now intros -> |].
        intros Hxr. exact (Hd x Hx Hxr).
      * intros x [<-|Hx]; [now left|]. right.
        rewrite in_app_iff in *. destruct Hx; auto.
      * apply NoDup_node. repeat split; auto.
        intros x Hx Hx'. exact (Hd x Hx (Hincl x Hx')).
      * intros x Hx Hx'. simpl in Hx, Hx'. rewrite in_app_iff in Hx, Hx'.
        apply Hfreed; tauto.
      * now rewrite Hroot0.
      * intros x Hx. simpl in Hx. rewrite in_app_iff in Hx.
        rewrite Hcells0. apply Hother; intuition congruence.
      * assumption.
    + (* the node to remove *)
      assert (Hina : In a (a :: fl ++ fr)) by now left.
      destruct (is_null l) eqn:El0; destruct (is_null r) eqn:Er0;
        cbn [andb fst snd].
      * (* no child *)
        destruct l; [|discriminate]. destruct r; [|discriminate].
        destruct Hl as [-> ->]. destruct Hr as [-> ->].
        destruct fuel as [|fuel]; [lia|].
        rewrite (delete_mem_leaf _ _ _ Ha). cbn [bind].
        assert (Hread1 : read_slot node (set_cell a None m) = Some (Some a)).
        { transitivity (read_slot node m); [|exact Hread].
          apply read_slot_agree; [reflexivity|].
          intros b Hbn. apply cells_set_cell_other. now apply Hb. }
        erewrite write_slot_ok by exact Hread1. cbn [bind].
        exists (poke node None (set_cell a None m)), None, [].
        split; [reflexivity|].
        split; [eapply read_slot_poke; exact Hread1|].
        split; [split; reflexivity|]. split; [intros x []|].
        split; [constructor|]. split; [|split; [split|discriminate]].
        -- intros x [<-|[]] _.
           erewrite cells_poke_inside; [apply cells_set_cell_same | exact Hout
                                       | exact Hina].
        -- destruct node; reflexivity.
        -- intros x Hx.
           assert (Hxa : x <> a) by (intros ->; apply Hx; now left).
           destruct node as [|b|b]; simpl; eqb_cases; subst;
             try reflexivity; try contradiction;
             exfalso; eapply Hb; eauto.
      * (* a right child only *)
        destruct l; [|discriminate]. destruct Hl as [-> ->].
        destruct pr as [ar|]; [|discriminate]. simpl app in *.
        erewrite write_slot_ok by exact Hread. cbn [bind].
        set (m1 := poke node (Some ar) m).
        assert (Ha1 : cells m1 a = Some (mkCell d None (Some ar))).
        { unfold m1. erewrite cells_poke_inside; eassumption. }
        assert (Hr1 : read_slot (right_slot a) m1 = Some (Some ar))
          by (simpl; now rewrite Ha1).
        erewrite write_slot_ok by exact Hr1. cbn [bind].
        set (m2 := poke (right_slot a) None m1).
        assert (Ha2 : cells m2 a = Some (mkCell d None None)).
        { unfold m2. simpl. now rewrite Nat.eqb_refl, Ha1. }
        destruct fuel as [|fuel]; [lia|].
        rewrite (delete_mem_leaf _ _ _ Ha2). cbn [bind].
        assert (Hkeep : forall x, x <> a ->
                   cells (set_cell a None m2) x = cells m1 x).
        { intros x Hxa. unfold m2. simpl. now eqb_cases. }
        exists (set_cell a None m2), (Some ar), fr.
        split; [reflexivity|]. split; [|split; [|split; [|split; [|split]]]].
        -- transitivity (read_slot node m1);
             [|eapply read_slot_poke; exact Hread].
           apply read_slot_agree; [reflexivity|].
           intros b Hbn. apply Hkeep. now apply Hb.
        -- apply owns_frame with (cells m); [|assumption].
           intros x Hx. rewrite Hkeep by (intros ->; contradiction).
           unfold m1. eapply cells_poke_inside; [exact Hout|]. now right.
        -- intros x Hx. now right.
        -- assumption.
        -- intros x [<-|Hx] Hx'; [apply cells_set_cell_same | contradiction].
        -- split; [split; [reflexivity|] | discriminate].
           intros x Hx. apply Hkeep. intros ->. apply Hx. now left.
      * (* a left child only *)
        destruct r; [|discriminate]. destruct Hr as [-> ->].
        destruct pl as [al|]; [|discriminate]. rewrite app_nil_r in *.
        erewrite write_slot_ok by exact Hread. cbn [bind].
        set (m1 := poke node (Some al) m).
        assert (Ha1 : cells m1 a = Some (mkCell d (Some al) None)).
        { unfold m1. erewrite cells_poke_inside; eassumption. }
        assert (Hr1 : read_slot (left_slot a) m1 = Some (Some al))
          by (simpl; now rewrite Ha1).
        erewrite write_slot_ok by exact Hr1. cbn [bind].
        set (m2 := poke (left_slot a) None m1).
        assert (Ha2 : cells m2 a = Some (mkCell d None None)).
        { unfold m2. simpl. now rewrite Nat.eqb_refl, Ha1. }
        destruct fuel as [|fuel]; [lia|].
        rewrite (delete_mem_leaf _ _ _ Ha2). cbn [bind].
        assert (Hkeep : forall x, x <> a ->
                   cells (set_cell a None m2) x = cells m1 x).
        { intros x Hxa. unfold m2. simpl. now eqb_cases. }
        exists (set_cell a None m2), (Some al), fl.
        split; [reflexivity|]. split; [|split; [|split; [|split; [|split]]]].
        -- transitivity (read_slot node m1);
             [|eapply read_slot_poke; exact Hread].
           apply read_slot_agree; [reflexivity|].
           intros b Hbn. apply Hkeep. now apply Hb.
        -- apply owns_frame with (cells m); [|assumption].
           intros x Hx. rewrite Hkeep by (intros ->; contradiction).
           unfold m1. eapply cells_poke_inside; [exact Hout|]. now right.
        -- intros x Hx. now right.
        -- assumption.
        -- intros x [<-|Hx] Hx'; [apply cells_set_cell_same | contradiction].
        -- split; [split; [reflexivity|] | discriminate].
           intros x Hx. apply Hkeep. intros ->. apply Hx. now left.
      * (* two children *)
        destruct pr as [ar|]; [|discriminate].
        destruct (min_mem_owns r (fuel:=fuel) ar fr m Hr ltac:(lia))
          as (s & fs & Emin & Hs & Hfs).
        destruct (min_Node r Er0) as (sd & rr & Hmin).
        rewrite Hmin in Hs |- *.
        destruct Hs as (s' & psl & psr & fsl & fsr & [= <-] & Hcs & -> & _).
        assert (Hsr : In s fr) by (apply Hfs; now left).
        assert (Hsa : s <> a) by (intros ->; contradiction).
        rewrite Emin. cbn [bind read_value]. rewrite Hcs.
        cbn [bind cell_data]. unfold write_data. rewrite Ha.
        cbn [bind cell_left cell_right].
        set (m1 := set_cell a (Some (mkCell sd pl (Some ar))) m).
        assert (Hrr : read_slot (right_slot a) m1 = Some (Some ar))
          by (unfold m1; simpl; now rewrite Nat.eqb_refl).
        assert (Hr1 : owns (cells m1) (Some ar) r fr).
        { apply owns_frame with (cells m); [|assumption].
          intros x Hx. apply cells_set_cell_other. now intros ->. }
        assert (Hv1 : read_value (data_slot s) m1 = Some sd).
        { unfold m1. simpl. destruct (Nat.eqb_spec s a); [contradiction|].
          now rewrite Hcs. }
        destruct (IHr fuel (right_slot a) (data_slot s) m1 (Some ar) fr sd
                    ltac:(lia) Hrr Hr1 Hfr Har Hv1)
          as (m' & pr' & fr' & E & Hread' & Ho' & Hincl & Hnd' & Hfreed
              & [Hroot Hsame] & _).
        rewrite E. cbn [bind fst snd].
        assert (Ha' : cells m' a = Some (mkCell sd pl pr')).
        { rewrite Hsame by assumption. unfold m1. simpl.
          now rewrite !Nat.eqb_refl. }
        assert (Hother : forall x, x <> a -> ~ In x fr ->
                                   cells m' x = cells m x).
        { intros x Hxa Hxl. rewrite Hsame by assumption.
          unfold m1. simpl. now eqb_cases. }
        exists m', (Some a), (a :: fl ++ fr').
        split; [reflexivity|].
        split; [|split; [|split; [|split; [|split; [|split]]]]].
        -- transitivity (read_slot node m); [|exact Hread].
           apply read_slot_agree; [exact Hroot|].
           intros b Hbn. destruct (Hb b Hbn) as (? & Hn).
           rewrite in_app_iff in Hn. apply Hother; tauto.
        -- exists a, pl, pr', fl, fr'. repeat split; try assumption.
           apply owns_frame with (cells m); [|assumption].
           intros x Hx. apply Hother; [now intros -> |].
           intros Hxr. exact (Hd x Hx Hxr).
        -- intros x [<-|Hx]; [now left|]. right.
           rewrite in_app_iff in *. destruct Hx; auto.
        -- apply NoDup_node. repeat split; auto.
           intros x Hx Hx'. exact (Hd x Hx (Hincl x Hx')).
        -- intros x Hx Hx'. simpl in Hx, Hx'. rewrite in_app_iff in Hx, Hx'.
           apply Hfreed; tauto.
        -- split; [now rewrite Hroot0|].
           intros x Hx. simpl in Hx. rewrite in_app_iff in Hx.
           rewrite Hcells0. apply Hother; intuition congruence.
        -- discriminate.
Qed.

(** *** The public members on a store that holds a tree *)

(** [insert] on a store that holds a tree, with an allocator that hands out
    an unused address.  The call returns, without touching a released cell,
    the value that [insert_node] gives; the store then holds the tree that
    [insert_node] gives; cells outside the tree and the new cell are as they
    were.  When the call returns [true] the tree occupies its former cells
    and the new one; when it returns [false] the store is the one it was
    given.  The value may be passed from outside or be the [data] field of a
    live node. *)
Theorem insert_on_store (fresh : store T -> addr) m t fp value v fuel :
  holds m t fp -> read_value value m = Some v ->
  cells m (fresh m) = None -> height t < fuel ->
  exists m' fp',
    insert_mem fresh fuel root_slot value m
    = Some (fst (insert_node t v), m') /\
    holds m' (snd (insert_node t v)) fp' /\
    (forall x, ~ In x (fresh m :: fp) -> cells m' x = cells m x) /\
    if fst (insert_node t v) then Permutation fp' (fresh m :: fp)
    else fp' = fp /\ m' = m.
Proof.
  intros [Ho Hnd] Hv Hfresh Hh.
  destruct (insert_mem_owns fresh t (fuel := fuel) root_slot value m
              (p := root_ptr m) (fp := fp) (v := v) Hh eq_refl Ho Hnd I Hv
              Hfresh)
    as (m' & p' & fp' & E & Hread & Ho' & [_ Hsame] & Hres).
  injection Hread as <-.
  exists m', fp'. split; [exact E|]. split; [|split; [exact Hsame | exact Hres]].
  split; [exact Ho'|].
  destruct (fst (insert_node t v)).
  - apply Permutation_NoDup with (fresh m :: fp); [now symmetry|].
    constructor; [|assumption].
    intros Hin. revert Hfresh. eapply owns_live; eassumption.
  - now destruct Hres as [-> _].
Qed.

(** [remove] on a store that holds a tree.  The call returns, without
    touching a released cell or releasing one twice, the value that
    [remove_node] gives; the store then holds the tree that [remove_node]
    gives, in cells that the old tree occupied; every cell of the old tree
    that the new one does not occupy has been released; cells outside the
    old tree are as they were.  When the call returns [false] the store is
    the one it was given.  The value may be passed from outside or be the
    [data] field of a live node, also of the node that is removed. *)
Theorem remove_on_store m t fp value v fuel :
  holds m t fp -> read_value value m = Some v -> height t < fuel ->
  exists m' fp',
    remove_mem fuel root_slot value m = Some (fst (remove_node t v), m') /\
    holds m' (snd (remove_node t v)) fp' /\
    incl fp' fp /\
    (forall x, In x fp -> ~ In x fp' -> cells m' x = None) /\
    (forall x, ~ In x fp -> cells m' x = cells m x) /\
    (fst (remove_node t v) = false -> m' = m).
Proof.
  intros [Ho Hnd] Hv Hh.
  destruct (remove_mem_owns t (fuel := fuel) root_slot value m
              (p := root_ptr m) (fp := fp) (v := v) Hh eq_refl Ho Hnd I Hv)
    as (m' & p' & fp' & E & Hread & Ho' & Hincl & Hnd' & Hfreed
        & [_ Hsame] & Hfalse).
  injection Hread as <-.
  exists m', fp'. repeat split; assumption.
Qed.

(** On an ordered tree a successful [remove] releases exactly one cell: the
    new tree occupies one cell less than the old one, all of them cells of
    the old tree. *)
Theorem remove_on_store_releases_one `{!StrictWeakOrder T}
  m t fp value v fuel :
  holds m t fp -> read_value value m = Some v -> height t < fuel ->
  is_bst t = true -> contain_node t v = true ->
  exists m' fp',
    remove_mem fuel root_slot value m = Some (true, m') /\
    holds m' (snd (remove_node t v)) fp' /\
    incl fp' fp /\ S (length fp') = length fp /\
    (forall x, In x fp -> ~ In x fp' -> cells m' x = None).
Proof.
  intros [Ho Hnd] Hv Hh Hb Hc.
  destruct (remove_mem_owns t (fuel := fuel) root_slot value m
              (p := root_ptr m) (fp := fp) (v := v) Hh eq_refl Ho Hnd I Hv)
    as (m' & p' & fp' & E & Hread & Ho' & Hincl & Hnd' & Hfreed & _).
  injection Hread as <-.
  rewrite remove_node_fst, Hc in E.
  exists m', fp'. repeat split; try assumption.
  rewrite (owns_length _ _ _ _ Ho), (owns_length _ _ _ _ Ho').
  rewrite <- remove_node_fst in Hc.
  destruct (remove_node_elems t v Hb Hc) as (s1 & x & s2 & Hel & _ & Hel').
  rewrite <- !in_order_length, Hel, Hel', !length_app. simpl. lia.
Qed.

End MemoryUpdates.

(** ** The further properties at work on the integer tree *)

Section MoreInstances.

Local Open Scope Z_scope.

Local Notation seven_tree := (Node seven_left 50 seven_right).

(** Walks a concrete tree and the cells that should spell it out. *)
Ltac spell_out :=
  lazymatch goal with
  | |- owns _ _ nullptr _ => split; reflexivity
  | |- owns _ _ (Node _ _ _) _ =>
      do 5 eexists;
      split; [reflexivity|];
      split; [reflexivity|];
      split; [|split; [spell_out | spell_out]]
  end.

Lemma seven_store_owns : owns (cells seven_store) (Some 0%nat) seven_tree
                           seven_cells.
Proof.
  unfold seven_left, seven_right, TreeNode_new. spell_out.
  all: revgoals. all: reflexivity.
Qed.

Lemma seven_cells_NoDup : NoDup seven_cells.
Proof.
  unfold seven_cells.
  repeat (constructor; [simpl; intuition discriminate|]). constructor.
Qed.

Lemma seven_store_holds : holds seven_store seven_tree seven_cells.
Proof. split; [exact seven_store_owns | exact seven_cells_NoDup]. Qed.

Lemma remove_splices_witness :
  slot_at (root seven) (descent (root seven) 20)
  = Some (Node nullptr 20 nullptr) /\
  remove seven 20
  = (true, mkBST (assign_at (root seven) (descent (root seven) 20) nullptr)).
Proof.
  split; [reflexivity|].
  apply (@remove_splices Z Z_less seven 20 nullptr 20 nullptr eq_refl eq_refl).
Defined.

Lemma min_is_least_witness :
  is_bst (root seven) = true /\
  exists s rr rest,
    min (root seven) = Node nullptr s rr /\
    in_order_rec (root seven) [] = s :: rest /\
    (forall x, In x rest -> less s x = true).
Proof.
  split; [reflexivity|].
  exact (@min_is_least Z Z_less Z_strict_weak_order (root seven)
           eq_refl eq_refl).
Defined.

Lemma max_is_greatest_witness :
  is_bst (root seven) = true /\
  exists s ll rest,
    max (root seven) = Node ll s nullptr /\
    in_order_rec (root seven) [] = rest ++ [s] /\
    (forall x, In x rest -> less x s = true).
Proof.
  split; [reflexivity|].
  exact (@max_is_greatest Z Z_less Z_strict_weak_order (root seven)
           eq_refl eq_refl).
Defined.

Lemma contain_iff_stored_witness :
  is_bst (root seven) = true /\
  contain seven 40 = existsb (fun x => equiv x 40) (in_order seven).
Proof.
  split; [reflexivity|].
  exact (@contain_iff_stored Z Z_less Z_strict_weak_order seven 40 eq_refl).
Defined.

Lemma insert_in_order_witness :
  fst (insert seven 55) = true /\
  exists s1 s2,
    in_order seven = s1 ++ s2 /\
    in_order (snd (insert seven 55)) = s1 ++ 55 :: s2 /\
    (forall x, In x s1 -> less x 55 = true) /\
    (forall x, In x s2 -> less 55 x = true).
Proof.
  split; [reflexivity|].
  exact (@insert_in_order Z Z_less Z_strict_weak_order seven 55
           eq_refl eq_refl).
Defined.

Lemma remove_in_order_witness :
  fst (remove seven 50) = true /\
  exists s1 x s2,
    in_order seven = s1 ++ x :: s2 /\ equiv x 50 = true /\
    in_order (snd (remove seven 50)) = s1 ++ s2 /\
    (forall y, In y (s1 ++ s2) -> equiv y 50 = false).
Proof.
  split; [reflexivity|].
  exact (@remove_in_order Z Z_less Z_strict_weak_order seven 50
           eq_refl eq_refl).
Defined.

Lemma membership_after_call_witness :
  contain (snd (insert seven 55)) 60 = contain seven 60 || equiv 55 60 /\
  contain (snd (remove seven 55)) 60 = contain seven 60 && negb (equiv 55 60).
Proof.
  exact (@membership_after_call Z Z_less Z_strict_weak_order seven 55 60
           eq_refl).
Defined.

Lemma repeated_call_is_rejected_witness :
  insert (snd (insert seven 55)) 55 = (false, snd (insert seven 55)) /\
  remove (snd (remove seven 50)) 50 = (false, snd (remove seven 50)).
Proof.
  split.
  - apply (@repeated_call_is_rejected Z Z_less Z_strict_weak_order seven 55).
  - apply (@repeated_call_is_rejected Z Z_less Z_strict_weak_order seven 50).
    reflexivity.
Defined.

Lemma pre_order_rebuilds_witness :
  is_bst (root seven) = true /\
  run (map (@Insert Z) (pre_order seven)) BST_new
  = (repeat true (length (pre_order seven)), seven).
Proof.
  split; [reflexivity|].
  exact (@pre_order_rebuilds Z Z_less Z_strict_weak_order seven eq_refl).
Defined.

Lemma inserts_sort_witness :
  ascending (in_order (snd (run (map (@Insert Z) [50; 30; 70; 30]) BST_new)))
  /\ contain (snd (run (map (@Insert Z) [50; 30; 70; 30]) BST_new)) 70 = true.
Proof.
  split.
  - apply (@inserts_sort Z Z_less Z_strict_weak_order [50; 30; 70; 30]).
  - apply (@inserts_sort Z Z_less Z_strict_weak_order [50; 30; 70; 30]).
    simpl. tauto.
Defined.

Lemma destructor_releases_the_tree_witness :
  holds seven_store seven_tree seven_cells /\
  exists m',
    BST_delete 3%nat seven_store = Some m' /\
    (forall x, In x seven_cells ->
               cells seven_store x <> None /\ cells m' x = None) /\
    (forall x, ~ In x seven_cells -> cells m' x = cells seven_store x).
Proof.
  split; [exact seven_store_holds|].
  apply (destructor_releases_the_tree seven_store_holds).
  simpl. lia.
Defined.



Lemma insert_on_store_witness :
  cells seven_store (first_free 10%nat seven_store) = None /\
  exists m' fp',
    insert_mem (first_free 10%nat) 4%nat root_slot (outside 55) seven_store
    = Some (true, m') /\
    holds m' (snd (insert_node seven_tree 55)) fp' /\
    Permutation fp' (first_free 10%nat seven_store :: seven_cells).
Proof.
  split; [reflexivity|].
  destruct (insert_on_store (first_free 10%nat) (outside 55) (v := 55)
              (fuel := 4%nat) seven_store_holds eq_refl eq_refl
              ltac:(simpl; lia))
    as (m' & fp' & E & Hm' & _ & Hfp).
  exists m', fp'. auto.
Defined.

Lemma remove_on_store_witness :
  read_value (data_slot 0%nat) seven_store = Some 50 /\
  exists m' fp',
    remove_mem 4%nat root_slot (data_slot 0%nat) seven_store = Some (true, m') /\
    holds m' (snd (remove_node seven_tree 50)) fp' /\
    incl fp' seven_cells.
Proof.
  split; [reflexivity|].
  destruct (remove_on_store (data_slot 0%nat) (v := 50) (fuel := 4%nat)
              seven_store_holds eq_refl ltac:(simpl; lia))
    as (m' & fp' & E & Hm' & Hincl & _).
  exists m', fp'. auto.
Defined.

Lemma remove_on_store_releases_one_witness :
  is_bst seven_tree = true /\ contain_node seven_tree 30 = true /\
  exists m' fp',
    remove_mem 4%nat root_slot (outside 30) seven_store = Some (true, m') /\
    holds m' (snd (remove_node seven_tree 30)) fp' /\
    incl fp' seven_cells /\ S (length fp') = length seven_cells /\
    (forall x, In x seven_cells -> ~ In x fp' -> cells m' x = None).
Proof.
  split; [reflexivity|]. split; [reflexivity|].
  exact (@remove_on_store_releases_one Z Z_less Z_strict_weak_order
           seven_store seven_tree seven_cells (outside 30) 30 4%nat
           seven_store_holds eq_refl ltac:(simpl; lia) eq_refl eq_refl).
Defined.

End MoreInstances.
